(** * The snake game: a shallow embedding of [the_snake.py]

    The simulation core of the program is embedded as pure functions over
    explicit state records: the body ([SnakeInternal]), the target
    ([AppleInternal]), the controller ([GameController]) and one iteration
    of the loop of [main].  Drawing on the pygame surface has no effect on
    the state of the simulation and is left out, except for [_erase_last],
    which clears the field [_last].

    - Python integers are [Z]; [//] and [%] with a positive divisor are
      [Z.div] and [Z.modulo].
    - A position and a direction are pairs of integers, as in the source.
    - The set [_tail_cache] is a [gset] of positions; [set.remove] raises
      [KeyError] on a missing element, so [move] returns an [option], with
      [None] for a raised exception.
    - [randint] is modelled by the list of values it returns: one element of
      the list is the pair of the two consecutive draws of one iteration of
      the loop of [randomize_position].  A loop that is still running when
      the list is exhausted returns [None]. *)

From stdpp Require Import gmap list.
From Stdlib Require Import ZArith Lia.

Local Open Scope Z_scope.

Abbreviation Point := (Z * Z)%type.

(** ** Module-level constants *)

Definition SCREEN_WIDTH : Z := 640.
Definition SCREEN_HEIGHT : Z := 480.
Definition GRID_SIZE : Z := 20.
Definition GRID_WIDTH : Z := SCREEN_WIDTH / GRID_SIZE.
Definition GRID_HEIGHT : Z := SCREEN_HEIGHT / GRID_SIZE.
Definition START_APPLE_POSITION : Point := (SCREEN_WIDTH / 2, SCREEN_HEIGHT / 2).
Definition START_SNAKE_POSITION : Point := (SCREEN_WIDTH / 4, SCREEN_HEIGHT / 4).

Definition UP : Point := (0, -1).
Definition DOWN : Point := (0, 1).
Definition LEFT : Point := (-1, 0).
Definition RIGHT : Point := (1, 0).
Definition START_SNAKE_DIRECTION : Point := RIGHT.

(** The pygame surface, reduced to what the simulation reads from it. *)
Record Surface := { get_width : Z; get_height : Z }.

Definition screen : Surface :=
  {| get_width := SCREEN_WIDTH; get_height := SCREEN_HEIGHT |}.

(** The values returned by [randint], two per loop iteration. *)
Abbreviation Samples := (list (Z * Z)).

(** ** class AppleInternal *)

Module AppleInternal.

Record t := mk {
  _position : Point;
  _surface : Surface;
  _size : Z
}.

Definition set_position (a : t) (p : Point) : t :=
  {| _position := p; _surface := _surface a; _size := _size a |}.

(** One iteration of the body of the [while] of [randomize_position],
    with [x] and [y] the two values drawn.  This is the code for a size
    other than 0; at size 0 Python's [%] raises [ZeroDivisionError]. *)
Definition place (a : t) (x y : Z) : t :=
  set_position a (x - x mod _size a, y - y mod _size a).

(** [while last_pos == self._position: ...] *)
Fixpoint randomize_position_loop (last_pos : Point) (a : t) (rnd : Samples)
  : option (t * Samples) :=
  if decide (last_pos = _position a) then
    match rnd with
    | [] => None
    | (x, y) :: rnd' => randomize_position_loop last_pos (place a x y) rnd'
    end
  else Some (a, rnd).

Definition randomize_position (a : t) (rnd : Samples)
  : option (Point * t * Samples) :=
  let last_pos := _position a in
  match randomize_position_loop last_pos a rnd with
  | Some (a', rnd') => Some (_position a', a', rnd')
  | None => None
  end.

(** The range of the values [randint] can return for this apple. *)
Definition in_range (a : t) (xy : Z * Z) : Prop :=
  0 <= xy.1 <= get_width (_surface a) - _size a /\
  0 <= xy.2 <= get_height (_surface a) - _size a.

End AppleInternal.

(** ** class SnakeInternal *)

Module SnakeInternal.

Record t := mk {
  _position : Point;
  _size : Z;
  _last : option Point;
  _positions : list Point;
  _direction : Point;
  next_direction : option Point;
  _increase : bool;
  _tail_cache : gset Point
}.

Definition set_position (s : t) (p : Point) : t :=
  mk p (_size s) (_last s) (_positions s) (_direction s)
     (next_direction s) (_increase s) (_tail_cache s).

Definition set_last (s : t) (l : option Point) : t :=
  mk (_position s) (_size s) l (_positions s) (_direction s)
     (next_direction s) (_increase s) (_tail_cache s).

Definition set_positions (s : t) (l : list Point) : t :=
  mk (_position s) (_size s) (_last s) l (_direction s)
     (next_direction s) (_increase s) (_tail_cache s).

Definition set_direction (s : t) (d : Point) : t :=
  mk (_position s) (_size s) (_last s) (_positions s) d
     (next_direction s) (_increase s) (_tail_cache s).

Definition set_next_direction (s : t) (d : option Point) : t :=
  mk (_position s) (_size s) (_last s) (_positions s) (_direction s)
     d (_increase s) (_tail_cache s).

Definition set_increase (s : t) (b : bool) : t :=
  mk (_position s) (_size s) (_last s) (_positions s) (_direction s)
     (next_direction s) b (_tail_cache s).

Definition set_tail_cache (s : t) (c : gset Point) : t :=
  mk (_position s) (_size s) (_last s) (_positions s) (_direction s)
     (next_direction s) (_increase s) c.

(** [SnakeInternal(surface, size, position)] *)
Definition init (size : Z) (position : Point) : t :=
  mk position size None [] START_SNAKE_DIRECTION None false ∅.

(** The property [length]. *)
Definition length (s : t) : Z := Z.of_nat (List.length (_positions s)) + 1.

Definition update_direction (s : t) (next : Point) : t :=
  set_next_direction s (Some next).

(** [list.pop()]: the list without its last element, and that element;
    [None] on the empty list, where Python raises [IndexError]. *)
Definition pop (l : list Point) : option (list Point * Point) :=
  match last l with
  | Some x => Some (removelast l, x)
  | None => None
  end.

(** The next head: one cell along the direction, each axis wrapped. *)
Definition _get_next_head (s : t) : Point :=
  let x := (_position s).1 + (_direction s).1 * _size s in
  let y := (_position s).2 + (_direction s).2 * _size s in
  let x := if x <? 0 then SCREEN_WIDTH - _size s else x in
  let x := if x >? SCREEN_WIDTH - _size s then 0 else x in
  let y := if y <? 0 then SCREEN_HEIGHT - _size s else y in
  let y := if y >? SCREEN_HEIGHT - _size s then 0 else y in
  (x, y).

Definition is_point_in_snake (s : t) (point : Point) : bool :=
  bool_decide (point ∈ _tail_cache s).

(** The first two statements of [move]: the pending direction is
    committed and cleared. *)
Definition commit_direction (s : t) : t :=
  let s := set_direction s (match next_direction s with
                            | None => _direction s
                            | Some d => d
                            end) in
  set_next_direction s None.

(** The [if self._increase is False: ... else: ...] of [move]; [None]
    when [self._tail_cache.remove(self._last)] raises [KeyError]. *)
Definition shift_segments (s : t) : option t :=
  if negb (_increase s) then
    if (0 <? List.length (_positions s))%nat then
      match pop (_positions s) with
      | Some (rest, lst) =>
          let s := set_positions (set_last s (Some lst)) rest in
          if decide (lst ∈ _tail_cache s) then
            let s := set_tail_cache s (_tail_cache s ∖ {[lst]}) in
            let s := set_positions s (_position s :: _positions s) in
            Some (set_tail_cache s (_tail_cache s ∪ {[_position s]}))
          else None
      | None => None
      end
    else Some (set_last s (Some (_position s)))
  else
    let s := set_positions s (_position s :: _positions s) in
    let s := set_tail_cache s (_tail_cache s ∪ {[_position s]}) in
    Some (set_increase s false).

(** [move]: the result is the returned collision flag and the body after
    the step. *)
Definition move (s : t) : option (bool * t) :=
  let s := commit_direction s in
  match shift_segments s with
  | Some s =>
      let s := set_position s (_get_next_head s) in
      Some (is_point_in_snake s (_position s), s)
  | None => None
  end.

Definition increase (s : t) : t := set_increase s true.

Definition _erase_last (s : t) : t :=
  match _last s with
  | Some _ => set_last s None
  | None => s
  end.

Definition draw (s : t) : t := _erase_last s.

Definition get_head_position (s : t) : Point := _position s.

(** [reset], without the erasing of the drawn cells. *)
Definition reset (s : t) : t :=
  let s := _erase_last s in
  let s := set_positions s [] in
  let s := set_direction s START_SNAKE_DIRECTION in
  let s := set_next_direction s None in
  set_tail_cache s ∅.

End SnakeInternal.

(** ** Input events, as [handle_keys] reads them *)

Inductive Key := K_UP | K_DOWN | K_LEFT | K_RIGHT | K_OTHER.

Inductive Event := QUIT | KEYDOWN (key : Key) | OTHER_EVENT.

#[global] Instance Key_eq_dec : EqDecision Key.
Proof. solve_decision. Defined.

(** ** class GameController *)

Module GameController.

Record t := mk {
  snake : SnakeInternal.t;
  apple : AppleInternal.t
}.

(** The body of the [for] of [handle_keys] at a [KEYDOWN] event. *)
Definition handle_key (s : SnakeInternal.t) (key : Key) : SnakeInternal.t :=
  if bool_decide (key = K_UP)
     && bool_decide (SnakeInternal._direction s ≠ DOWN) then
    SnakeInternal.update_direction s UP
  else if bool_decide (key = K_DOWN)
          && bool_decide (SnakeInternal._direction s ≠ UP) then
    SnakeInternal.update_direction s DOWN
  else if bool_decide (key = K_LEFT)
          && bool_decide (SnakeInternal._direction s ≠ RIGHT) then
    SnakeInternal.update_direction s LEFT
  else if bool_decide (key = K_RIGHT)
          && bool_decide (SnakeInternal._direction s ≠ LEFT) then
    SnakeInternal.update_direction s RIGHT
  else s.

(** [handle_keys] over the events of [event.get()], in order. *)
Fixpoint handle_keys (s : SnakeInternal.t) (events : list Event)
  : bool * SnakeInternal.t :=
  match events with
  | [] => (true, s)
  | QUIT :: _ => (false, s)
  | KEYDOWN key :: events' => handle_keys (handle_key s key) events'
  | OTHER_EVENT :: events' => handle_keys s events'
  end.

(** [while True: point = ...; if not ...: break], with [fuel] bounding
    the number of iterations. *)
Fixpoint randomize_apple_loop (fuel : nat) (s : SnakeInternal.t)
    (a : AppleInternal.t) (rnd : Samples)
  : option (AppleInternal.t * Samples) :=
  match fuel with
  | O => None
  | S fuel' =>
      match AppleInternal.randomize_position a rnd with
      | Some (point, a', rnd') =>
          if negb (SnakeInternal.is_point_in_snake s point)
          then Some (a', rnd')
          else randomize_apple_loop fuel' s a' rnd'
      | None => None
      end
  end.

(** Every call of [randomize_position] draws at least once, so the loop
    makes at most [length rnd] complete iterations: the fuel given here
    never runs out before the samples do. *)
Definition randomize_apple (s : SnakeInternal.t) (a : AppleInternal.t)
    (rnd : Samples) : option (AppleInternal.t * Samples) :=
  randomize_apple_loop (S (List.length rnd)) s a rnd.

Definition validate_snake_head (g : t) (rnd : Samples)
  : option (t * Samples) :=
  if decide (SnakeInternal.get_head_position (snake g)
             = AppleInternal._position (apple g)) then
    let s := SnakeInternal.increase (snake g) in
    match randomize_apple s (apple g) rnd with
    | Some (a, rnd') => Some (mk s a, rnd')
    | None => None
    end
  else Some (g, rnd).

End GameController.

(** ** main *)

(** The state built by [main] before its loop; the first [snake.draw()]
    finds [_last] empty. *)
Definition main_init : GameController.t :=
  GameController.mk
    (SnakeInternal.draw (SnakeInternal.init GRID_SIZE START_SNAKE_POSITION))
    (AppleInternal.mk START_APPLE_POSITION screen GRID_SIZE).

(** What one iteration of the [while True] of [main] does. *)
Inductive Outcome :=
| Quit
| Raised
| Starved
| Next (g : GameController.t) (rnd : Samples).

Definition tick (g : GameController.t) (events : list Event) (rnd : Samples)
  : Outcome :=
  let (ok, s) := GameController.handle_keys (GameController.snake g) events in
  if negb ok then Quit
  else
    match SnakeInternal.move s with
    | None => Raised
    | Some (true, s) =>
        let s := SnakeInternal.reset s in
        match GameController.randomize_apple s (GameController.apple g) rnd with
        | Some (a, rnd') =>
            Next (GameController.mk (SnakeInternal.draw s) a) rnd'
        | None => Starved
        end
    | Some (false, s) =>
        match GameController.validate_snake_head
                (GameController.mk s (GameController.apple g)) rnd with
        | Some (g', rnd') =>
            Next (GameController.mk
                    (SnakeInternal.draw (GameController.snake g'))
                    (GameController.apple g')) rnd'
        | None => Starved
        end
    end.

(** The states the program reaches after complete iterations of its loop. *)
Inductive reachable : GameController.t -> Prop :=
| reachable_init : reachable main_init
| reachable_tick g events rnd g' rnd' :
    reachable g -> tick g events rnd = Next g' rnd' -> reachable g'.

(** ** Vocabulary of the statements *)

(** The reverse of a direction: UP and DOWN, LEFT and RIGHT. *)
Definition opposite (d : Point) : Point := (- d.1, - d.2).

Definition is_unit (d : Point) : Prop :=
  d = UP \/ d = DOWN \/ d = LEFT \/ d = RIGHT.

(** The direction an arrow key asks for. *)
Definition key_direction (key : Key) : option Point :=
  match key with
  | K_UP => Some UP
  | K_DOWN => Some DOWN
  | K_LEFT => Some LEFT
  | K_RIGHT => Some RIGHT
  | K_OTHER => None
  end.

(** A cell of the playfield: inside the screen and aligned to the grid. *)
Definition on_grid (p : Point) : Prop :=
  (0 <= p.1 < SCREEN_WIDTH /\ p.1 mod GRID_SIZE = 0) /\
  (0 <= p.2 < SCREEN_HEIGHT /\ p.2 mod GRID_SIZE = 0).

(** One coordinate after a step to [x], wrapped as [_get_next_head] does. *)
Definition wrapped (x extent cell x' : Z) : Prop :=
  (x < 0 -> x' = extent - cell) /\
  (x > extent - cell -> x' = 0) /\
  (0 <= x <= extent - cell -> x' = x).

(** The occupancy index holds exactly the trailing segments. *)
Definition synced (s : SnakeInternal.t) : Prop :=
  SnakeInternal._tail_cache s = list_to_set (SnakeInternal._positions s).

(** The head is not one of the trailing segments. *)
Definition head_free (s : SnakeInternal.t) : Prop :=
  SnakeInternal._position s ∉ SnakeInternal._positions s.

(** What holds of the body all along a run of the program. *)
Record body_inv (s : SnakeInternal.t) : Prop := {
  inv_synced : synced s;
  inv_nodup : NoDup (SnakeInternal._positions s);
  inv_size : SnakeInternal._size s = GRID_SIZE;
  inv_direction : is_unit (SnakeInternal._direction s);
  inv_pending : forall d, SnakeInternal.next_direction s = Some d -> is_unit d;
  inv_cell : on_grid (SnakeInternal._position s)
}.

(** What holds between two iterations of the loop of [main]. *)
Record tick_inv (g : GameController.t) : Prop := {
  tick_body : body_inv (GameController.snake g);
  tick_head : head_free (GameController.snake g);
  tick_pending : SnakeInternal.next_direction (GameController.snake g) = None
}.

(** The cells of the playfield, column by column. *)
Definition grid_cells : list Point :=
  x ← seqZ 0 GRID_WIDTH; y ← seqZ 0 GRID_HEIGHT; [(x * GRID_SIZE, y * GRID_SIZE)].

(** A run of the loop of [main]: one list of events and one list of samples
    for each iteration. *)
Fixpoint run (g : GameController.t) (inputs : list (list Event * Samples))
  : option GameController.t :=
  match inputs with
  | [] => Some g
  | (events, rnd) :: inputs' =>
      match tick g events rnd with
      | Next g' _ => run g' inputs'
      | _ => None
      end
  end.

(** The cell a pair of draws is rounded down to by [randomize_position]. *)
Definition cell_of (size : Z) (xy : Z * Z) : Point :=
  (xy.1 - xy.1 mod size, xy.2 - xy.2 mod size).

(** A pair of draws whose cell is neither occupied by the body nor the
    cell the apple is on. *)
Definition frees (s : SnakeInternal.t) (a : AppleInternal.t) (xy : Z * Z)
  : Prop :=
  (cell_of (AppleInternal._size a) xy ∉ SnakeInternal._tail_cache s) /\
  cell_of (AppleInternal._size a) xy ≠ AppleInternal._position a.

(** A body whose trailing segments cover the whole playfield. *)
Definition full_body : SnakeInternal.t :=
  SnakeInternal.mk (0, 0) GRID_SIZE None grid_cells RIGHT None false
                   (list_to_set grid_cells).

(** ** A sample run *)

(** Fifteen iterations from the start of [main]: six cells down, then
    right to the apple, which is eaten on the fourteenth iteration and
    thrown to (360, 240), and one more cell to the right. *)
Definition sample_inputs : list (list Event * Samples) :=
  ([KEYDOWN K_DOWN], []) :: replicate 5 ([], []) ++
  ([KEYDOWN K_RIGHT], []) :: replicate 6 ([], []) ++
  [([], [(370, 250)]); ([], [])].

(** The state after these iterations: one trailing segment, the head one
    cell to the left of the apple. *)
Definition sample_game : GameController.t :=
  GameController.mk
    (SnakeInternal.mk (340, 240) GRID_SIZE None [(320, 240)] RIGHT None false
                      {[ (320, 240) ]})
    (AppleInternal.mk (360, 240) screen GRID_SIZE).

(** The body of [sample_game] after one more [move], which brings the head
    onto the apple. *)
Definition sample_body_moved : SnakeInternal.t :=
  SnakeInternal.mk (360, 240) GRID_SIZE (Some (320, 240)) [(340, 240)] RIGHT
                   None false {[ (340, 240) ]}.

(** The body of [sample_game] with UP queued by an earlier event of the
    iteration. *)
Definition sample_body_queued : SnakeInternal.t :=
  SnakeInternal.update_direction (GameController.snake sample_game) UP.

(** A lone head on the rightmost column, moving RIGHT, and the same body
    after one [move]. *)
Definition sample_body_edge : SnakeInternal.t :=
  SnakeInternal.mk (620, 240) GRID_SIZE None [] RIGHT None false ∅.

Definition sample_body_wrapped : SnakeInternal.t :=
  SnakeInternal.mk (0, 240) GRID_SIZE (Some (620, 240)) [] RIGHT None false ∅.

(** ** Vocabulary of the further properties *)

(** The cell one step from [p] in direction [d], as [_get_next_head]
    computes it on a body with the cell size of the program. *)
Definition next_cell (p d : Point) : Point :=
  SnakeInternal._get_next_head
    (SnakeInternal.mk p GRID_SIZE None [] d None false ∅).

(** Two cells one step apart. *)
Definition adjacent (p q : Point) : Prop :=
  exists d, is_unit d /\ p = next_cell q d.

(** A trail of cells: each one is one step from the one that follows. *)
Fixpoint trail (l : list Point) : Prop :=
  match l with
  | p :: l' =>
      match l' with
      | q :: _ => adjacent p q /\ trail l'
      | [] => True
      end
  | [] => True
  end.

(** [n] calls of [move] in a row: the flags they return, in order, and
    the body after the last one; [None] when one of them raises. *)
Fixpoint moves (n : nat) (s : SnakeInternal.t)
  : option (list bool * SnakeInternal.t) :=
  match n with
  | O => Some ([], s)
  | S n' =>
      match SnakeInternal.move s with
      | Some (b, s') =>
          match moves n' s' with
          | Some (bs, s'') => Some (b :: bs, s'')
          | None => None
          end
      | None => None
      end
  end.

(** The direction an event queues on a body that moves in direction
    [dir], if any. *)
Definition queued_by (dir : Point) (e : Event) : option Point :=
  match e with
  | KEYDOWN key =>
      match key_direction key with
      | Some d => if decide (d = opposite dir) then None else Some d
      | None => None
      end
  | _ => None
  end.


(** What holds of the shape of the body between two iterations of the
    loop of [main]. *)
Record shape_inv (s : SnakeInternal.t) : Prop := {
  shape_cells : Forall on_grid (SnakeInternal._positions s);
  shape_trail : trail (SnakeInternal._position s :: SnakeInternal._positions s);
  shape_neck : forall p l, SnakeInternal._positions s = p :: l ->
               SnakeInternal._position s = next_cell p (SnakeInternal._direction s);
  shape_last : SnakeInternal._last s = None
}.

(** The colour of a cell on the chessboard of the playfield. *)
Definition parity (p : Point) : Z := (p.1 / GRID_SIZE + p.2 / GRID_SIZE) mod 2.

(** ** A run that ends in a collision *)

(** Twenty iterations from the start of [main]: down and right to the
    apple as in the sample run, four apples eaten in a row, each thrown
    right in front of the head and the last one to (0, 0), one more cell
    to the right, then up and left. *)
Definition loop_inputs : list (list Event * Samples) :=
  ([KEYDOWN K_DOWN], []) :: replicate 5 ([], []) ++
  ([KEYDOWN K_RIGHT], []) :: replicate 6 ([], []) ++
  [([], [(340, 240)]); ([], [(360, 240)]); ([], [(380, 240)]);
   ([], [(0, 0)]); ([], []); ([KEYDOWN K_UP], []); ([KEYDOWN K_LEFT], [])].

(** The state after these iterations: four trailing segments, the head
    above the third one. *)
Definition loop_game : GameController.t :=
  GameController.mk
    (SnakeInternal.mk (380, 220) GRID_SIZE None
       [(400, 220); (400, 240); (380, 240); (360, 240)] LEFT None false
       (list_to_set [(400, 220); (400, 240); (380, 240); (360, 240)]))
    (AppleInternal.mk (0, 0) screen GRID_SIZE).

(** Its body once DOWN is queued, and after the [move] that follows,
    which runs the head into the segment at (380, 240). *)
Definition loop_body_turned : SnakeInternal.t :=
  SnakeInternal.update_direction (GameController.snake loop_game) DOWN.

Definition loop_body_collided : SnakeInternal.t :=
  SnakeInternal.mk (380, 240) GRID_SIZE (Some (360, 240))
    [(380, 220); (400, 220); (400, 240); (380, 240)] DOWN None false
    (list_to_set [(380, 220); (400, 220); (400, 240); (380, 240)]).

(** The state after that iteration, the apple thrown to (100, 100). *)
Definition loop_game_over : GameController.t :=
  GameController.mk
    (SnakeInternal.mk (380, 240) GRID_SIZE None [] RIGHT None false ∅)
    (AppleInternal.mk (100, 100) screen GRID_SIZE).

(** * Properties *)

(** ** The body: moving the segments *)

Section Body.

Import SnakeInternal.

Lemma list_nil_or_snoc (l : list Point) :
  l = [] \/ exists rest lst, l = rest ++ [lst].
Proof.
  induction l as [|x l _] using rev_ind; [by left | right; eauto].
Qed.

Lemma pop_snoc (rest : list Point) (lst : Point) :
  pop (rest ++ [lst]) = Some (rest, lst).
Proof.
  unfold pop. rewrite last_snoc. by rewrite removelast_last.
Qed.

Lemma shift_segments_grow (s : t) :
  _increase s = true ->
  shift_segments s =
    Some (mk (_position s) (_size s) (_last s) (_position s :: _positions s)
             (_direction s) (next_direction s) false
             (_tail_cache s ∪ {[_position s]})).
Proof. intros H. unfold shift_segments. by rewrite H. Qed.

Lemma shift_segments_alone (s : t) :
  _increase s = false -> _positions s = [] ->
  shift_segments s = Some (set_last s (Some (_position s))).
Proof. intros H E. unfold shift_segments. by rewrite H, E. Qed.

Lemma shift_segments_drop (s : t) (rest : list Point) (lst : Point) :
  _increase s = false -> _positions s = rest ++ [lst] ->
  shift_segments s =
    if decide (lst ∈ _tail_cache s) then
      Some (mk (_position s) (_size s) (Some lst) (_position s :: rest)
               (_direction s) (next_direction s) false
               (_tail_cache s ∖ {[lst]} ∪ {[_position s]}))
    else None.
Proof.
  intros H E. unfold shift_segments. rewrite H, E, pop_snoc. simpl.
  rewrite length_app. simpl.
  replace (0 <? List.length rest + 1)%nat with true
    by (symmetry; apply Nat.ltb_lt; lia).
  destruct (decide (lst ∈ _tail_cache s)); [|done].
  unfold set_tail_cache, set_positions, set_last. simpl. by rewrite H.
Qed.

(** [move] in terms of its three steps. *)
Lemma move_Some (s : t) (b : bool) (s' : t) :
  move s = Some (b, s') <->
  exists s1, shift_segments (commit_direction s) = Some s1 /\
             s' = set_position s1 (_get_next_head s1) /\
             b = bool_decide (_position s' ∈ _tail_cache s').
Proof.
  unfold move, is_point_in_snake.
  destruct (shift_segments (commit_direction s)) as [s1|]; split.
  - intros [= <- <-]. eauto.
  - intros (s2 & [= <-] & -> & ->). done.
  - done.
  - intros (s2 & [=] & _).
Qed.

Lemma move_None (s : t) :
  move s = None <-> shift_segments (commit_direction s) = None.
Proof.
  unfold move. destruct (shift_segments (commit_direction s)); by split.
Qed.

Lemma increase_idem (s : t) : increase (increase s) = increase s.
Proof. reflexivity. Qed.

Lemma iter_increase (n : nat) (s : t) :
  (1 <= n)%nat -> Nat.iter n increase s = increase s.
Proof.
  induction n as [|n IH]; [lia|]. intros _. simpl.
  destruct n as [|n]; [done|]. rewrite IH by lia. apply increase_idem.
Qed.

Lemma move_increase (s : t) :
  move (increase s) =
    Some (let s1 := mk (_position s) (_size s) (_last s)
                       (_position s :: _positions s)
                       (default (_direction s) (next_direction s)) None false
                       (_tail_cache s ∪ {[_position s]}) in
          let s' := set_position s1 (_get_next_head s1) in
          (bool_decide (_position s' ∈ _tail_cache s'), s')).
Proof.
  unfold move. rewrite shift_segments_grow by done. simpl.
  unfold is_point_in_snake. by destruct (next_direction s).
Qed.

End Body.

Section BodyClaims.

Import SnakeInternal.

(** C6: when no growth is pending, [move] keeps the number of trailing
    segments (and it raises only on a body whose last segment is missing
    from the index); [increase] followed by one [move] always succeeds,
    puts the head position of before the move in front of the segments,
    which makes them one more than before [increase], and clears the
    growth flag. *)
Theorem advance_length_dynamics (s : t) :
  (_increase s = false ->
     (forall b s', move s = Some (b, s') ->
        List.length (_positions s') = List.length (_positions s)) /\
     (move s = None <->
        exists rest lst, _positions s = rest ++ [lst] /\ lst ∉ _tail_cache s)) /\
  (exists b s', move (increase s) = Some (b, s') /\
     _positions s' = _position s :: _positions s /\
     List.length (_positions s') = S (List.length (_positions s)) /\
     _increase s' = false).
Proof.
  split.
  - intros H.
    assert (Hc : _increase (commit_direction s) = false) by done.
    destruct (list_nil_or_snoc (_positions s)) as [E | (rest & lst & E)].
    + split.
      * intros b s' (s1 & Hs & -> & _)%move_Some.
        rewrite shift_segments_alone in Hs by done.
        injection Hs as <-. simpl. by rewrite E.
      * rewrite move_None, shift_segments_alone by done.
        split; [done|]. intros (rest & lst & E' & _).
        rewrite E in E'. by destruct rest.
    + split.
      * intros b s' (s1 & Hs & -> & _)%move_Some.
        rewrite (shift_segments_drop _ rest lst) in Hs by done.
        simpl in Hs. destruct (decide (lst ∈ _tail_cache s)); [|done].
        injection Hs as <-. simpl. rewrite E, length_app. simpl. lia.
      * rewrite move_None, (shift_segments_drop _ rest lst) by done.
        simpl. destruct (decide (lst ∈ _tail_cache s)) as [Hin|Hout].
        -- split; [done|]. intros (r' & l' & E' & Hn).
           rewrite E in E'. apply app_inj_tail in E' as [_ <-]. done.
        -- split; [eauto|done].
  - rewrite move_increase. eexists _, _. split; [reflexivity|]. done.
Qed.

(** C10: calling [increase] any number of times, at least once, leaves
    the body as one call does, and the next [move] then adds exactly one
    trailing segment, the head position of before the move. *)
Theorem grow_idempotent (s : t) (n : nat) :
  (1 <= n)%nat ->
  Nat.iter n increase s = increase s /\
  move (Nat.iter n increase s) = move (increase s) /\
  exists b s', move (Nat.iter n increase s) = Some (b, s') /\
    _positions s' = _position s :: _positions s /\
    List.length (_positions s') = S (List.length (_positions s)).
Proof.
  intros Hn. rewrite iter_increase by done.
  split; [done|]. split; [done|].
  rewrite move_increase. eexists _, _. split; [reflexivity|]. done.
Qed.

(** On a body with growth pending [reset] does not leave the state the
    specification describes: it does not touch [_increase]. *)
Lemma reset_keeps_pending_growth :
  let s := increase (init GRID_SIZE START_SNAKE_POSITION) in
  ~ (_positions (reset s) = [] /\ _tail_cache (reset s) = ∅ /\
     _direction (reset s) = RIGHT /\ next_direction (reset s) = None /\
     _increase (reset s) = false /\ _position (reset s) = _position s).
Proof. intros s (_ & _ & _ & _ & H & _). discriminate H. Qed.

(** What [reset] does on every body: it empties the trailing segments and
    the occupancy index, restores the direction to RIGHT, clears the
    pending direction and leaves the head where it is; it does not assign
    the growth flag, which is cleared already whenever [reset] runs on the
    result of a [move], as in [main]. *)
Theorem reset_spec (s : t) :
  _positions (reset s) = [] /\ _tail_cache (reset s) = ∅ /\
  _direction (reset s) = START_SNAKE_DIRECTION /\
  START_SNAKE_DIRECTION = RIGHT /\
  next_direction (reset s) = None /\
  _position (reset s) = _position s /\
  _increase (reset s) = _increase s /\
  (forall s0 b, move s0 = Some (b, s) -> _increase (reset s) = false).
Proof.
  unfold reset, _erase_last.
  destruct (_last s) eqn:El; simpl; repeat (split; [done|]).
  - intros s0 b (s1 & Hs & -> & _)%move_Some. simpl.
    unfold shift_segments in Hs.
    destruct (_increase (commit_direction s0)) eqn:Ei; simpl in Hs.
    + by injection Hs as <-.
    + repeat case_match; simplify_eq; done.
  - intros s0 b (s1 & Hs & -> & _)%move_Some. simpl.
    unfold shift_segments in Hs.
    destruct (_increase (commit_direction s0)) eqn:Ei; simpl in Hs.
    + by injection Hs as <-.
    + repeat case_match; simplify_eq; done.
Qed.

End BodyClaims.

(** ** Grid geometry *)

Section Geometry.

Import SnakeInternal.

(** Moving the segments touches neither the head, the cell size nor the
    directions. *)
Lemma shift_segments_frame (s s1 : t) :
  shift_segments s = Some s1 ->
  _position s1 = _position s /\ _size s1 = _size s /\
  _direction s1 = _direction s /\ next_direction s1 = next_direction s.
Proof.
  unfold shift_segments. intros H.
  repeat case_match; simplify_eq; done.
Qed.

Lemma is_unit_cases (d : Point) :
  is_unit d ->
  (d.1 = 0 /\ (d.2 = -1 \/ d.2 = 1)) \/ ((d.1 = -1 \/ d.1 = 1) /\ d.2 = 0).
Proof. intros [-> | [-> | [-> | ->]]]; simpl; lia. Qed.

Lemma next_head_on_grid (s : t) :
  _size s = GRID_SIZE -> on_grid (_position s) -> is_unit (_direction s) ->
  on_grid (_get_next_head s) /\
  wrapped ((_position s).1 + (_direction s).1 * GRID_SIZE)
          SCREEN_WIDTH GRID_SIZE (_get_next_head s).1 /\
  wrapped ((_position s).2 + (_direction s).2 * GRID_SIZE)
          SCREEN_HEIGHT GRID_SIZE (_get_next_head s).2.
Proof.
  intros Hsize [[Hx Hxa] [Hy Hya]] Hd%is_unit_cases.
  unfold _get_next_head, on_grid, wrapped. rewrite Hsize.
  destruct (_position s) as [x y], (_direction s) as [dx dy].
  unfold SCREEN_WIDTH, SCREEN_HEIGHT, GRID_SIZE in *. simpl in *.
  repeat match goal with
         | |- context [?a <? ?b] => destruct (Z.ltb_spec a b)
         | |- context [?a >? ?b] => destruct (Z.gtb_spec a b)
         end; simpl;
    repeat split; intros; try lia;
    (Z.div_mod_to_equations; lia).
Qed.

(** C7: from a cell of the 640 by 480 playfield and with any of the four
    unit directions committed, the head after one [move] is again a cell
    of the playfield; a coordinate that stepped below 0 lands at the
    extent minus the cell size, one that stepped beyond it lands at 0,
    any other is the stepped coordinate; from the rightmost column and
    moving RIGHT the head is at column 0 of the same row. *)
Theorem toroidal_wrap (s : t) (b : bool) (s' : t) :
  _size s = GRID_SIZE ->
  on_grid (_position s) ->
  is_unit (default (_direction s) (next_direction s)) ->
  move s = Some (b, s') ->
  let d := default (_direction s) (next_direction s) in
  _position s' = _get_next_head (commit_direction s) /\
  on_grid (_position s') /\
  wrapped ((_position s).1 + d.1 * GRID_SIZE)
          SCREEN_WIDTH GRID_SIZE (_position s').1 /\
  wrapped ((_position s).2 + d.2 * GRID_SIZE)
          SCREEN_HEIGHT GRID_SIZE (_position s').2 /\
  ((_position s).1 = SCREEN_WIDTH - GRID_SIZE -> d = RIGHT ->
   _position s' = (0, (_position s).2)).
Proof.
  intros Hsize Hcell Hd (s1 & Hs & -> & _)%move_Some d.
  destruct (shift_segments_frame _ _ Hs) as (Hp & Hz & Hdir & _).
  assert (Hcd : _direction (commit_direction s) = d).
  { subst d. unfold commit_direction. simpl. by destruct (next_direction s). }
  assert (Heq : _position (set_position s1 (_get_next_head s1))
                = _get_next_head (commit_direction s)).
  { unfold _get_next_head. simpl. by rewrite Hp, Hz, Hdir. }
  rewrite Heq.
  destruct (next_head_on_grid (commit_direction s)) as (Hg & Hwx & Hwy);
    [done | done | by rewrite Hcd |].
  rewrite Hcd in Hwx, Hwy.
  change (_position (commit_direction s)) with (_position s) in Hwx, Hwy.
  revert Hg Hwx Hwy. clear Heq.
  generalize (_get_next_head (commit_direction s)). intros p Hg Hwx Hwy.
  repeat (split; [done|]).
  intros Hx Hr. destruct Hwx as (_ & Hw & _), Hwy as (_ & _ & Hw').
  destruct Hcell as [_ [Hy Hya]].
  apply injective_projections; simpl.
  - apply Hw. rewrite Hx, Hr. unfold SCREEN_WIDTH, GRID_SIZE. simpl. lia.
  - rewrite Hw'; rewrite Hr; simpl; [lia|].
    unfold SCREEN_HEIGHT, GRID_SIZE in *.
    Z.div_mod_to_equations. lia.
Qed.

End Geometry.

(** ** The controller: queuing a direction *)

Section Direction.

Import GameController SnakeInternal.

Lemma opposite_involutive (d : Point) : opposite (opposite d) = d.
Proof. destruct d as [x y]. unfold opposite. simpl. f_equal; lia. Qed.

Lemma opposite_swap (d e : Point) : d = opposite e <-> e = opposite d.
Proof. split; intros ->; by rewrite opposite_involutive. Qed.

Lemma is_unit_opposite (d : Point) : is_unit d -> is_unit (opposite d).
Proof.
  unfold is_unit. intros [-> | [-> | [-> | ->]]]; compute; tauto.
Qed.

Lemma is_unit_not_opposite (d : Point) : is_unit d -> d ≠ opposite d.
Proof. intros [-> | [-> | [-> | ->]]]; compute; congruence. Qed.

Lemma key_direction_unit (key : Key) (d : Point) :
  key_direction key = Some d -> is_unit d.
Proof. unfold is_unit. destruct key; intros [= <-]; tauto. Qed.

Lemma set_next_direction_same (s : t) :
  set_next_direction s (next_direction s) = s.
Proof. by destruct s. Qed.

(** An arrow key is queued exactly when it is not the reverse of the
    direction the body moves in; what is already queued plays no part. *)
Lemma handle_key_arrow (s : t) (key : Key) (d : Point) :
  key_direction key = Some d ->
  handle_key s key =
    if decide (d = opposite (_direction s)) then s else update_direction s d.
Proof.
  intros Hk. unfold handle_key.
  destruct (decide (d = opposite (_direction s))) as [Hrev | Hrev];
    apply opposite_swap in Hrev || rewrite opposite_swap in Hrev;
    destruct key; simplify_eq/=;
    repeat case_bool_decide; simpl; simplify_eq; try done;
    by compute in Hrev.
Qed.

Lemma handle_key_other (s : t) : handle_key s K_OTHER = s.
Proof. unfold handle_key. by repeat case_bool_decide. Qed.

(** Handling the events of one iteration changes nothing but the pending
    direction, and queues only unit directions that are not the reverse
    of the current one. *)
Lemma handle_keys_pending (events : list Event) (s : t) (ok : bool) (s1 : t) :
  handle_keys s events = (ok, s1) ->
  exists nd, s1 = set_next_direction s nd /\
    (nd = next_direction s \/
     exists d, nd = Some d /\ is_unit d /\ d ≠ opposite (_direction s)).
Proof.
  revert s. induction events as [|e events IH]; intros s H; simpl in H.
  - injection H as _ <-. exists (next_direction s).
    by rewrite set_next_direction_same; auto.
  - destruct e as [|key|].
    + injection H as _ <-. exists (next_direction s).
      by rewrite set_next_direction_same; auto.
    + apply IH in H as (nd & -> & Hnd).
      destruct (key_direction key) as [d|] eqn:Hk.
      * rewrite (handle_key_arrow s key d Hk) in *.
        destruct (decide (d = opposite (_direction s))) as [Hrev | Hrev];
          [eauto|].
        exists nd. split; [done|].
        destruct Hnd as [-> | Hnd]; [|by right].
        right. exists d. eauto using key_direction_unit.
      * destruct key; try discriminate Hk.
        rewrite handle_key_other in *. eauto.
    + eauto.
Qed.

Lemma move_direction (s : t) (b : bool) (s' : t) :
  move s = Some (b, s') ->
  _direction s' = default (_direction s) (next_direction s) /\
  next_direction s' = None.
Proof.
  intros (s1 & Hs & -> & _)%move_Some.
  destruct (shift_segments_frame _ _ Hs) as (_ & _ & Hd & Hn).
  simpl. rewrite Hd, Hn. simpl. by destruct (next_direction s).
Qed.

(** C1, amended: an arrow key that asks for the reverse of the direction
    the body moves in is dropped: the body, and so the pending direction,
    is left as it was, whatever is queued; the next [move] is what it
    would have been without the event: the direction after it is the
    queued one when a direction is queued, and the direction as it was
    when none is; any other arrow is queued, whatever is pending; and,
    unless the reverse was pending already, whatever the events of the
    iteration are, and how often the reverse is asked for among them, the
    direction after the next [move] is not the reverse. *)
Theorem reverse_intent_dropped (s : t) (key : Key) (d : Point) :
  key_direction key = Some d ->
  d = opposite (_direction s) ->
  handle_key s key = s /\
  next_direction (handle_key s key) = next_direction s /\
  move (handle_key s key) = move s /\
  (forall b s', move (handle_key s key) = Some (b, s') ->
     _direction s' = default (_direction s) (next_direction s) /\
     (next_direction s = None -> _direction s' = _direction s)) /\
  (forall key' d', key_direction key' = Some d' -> d' ≠ d ->
     next_direction (handle_key s key') = Some d') /\
  (forall events ok s1 b s',
     next_direction s ≠ Some d ->
     handle_keys s events = (ok, s1) ->
     move s1 = Some (b, s') ->
     _direction s' ≠ d).
Proof.
  intros Hk Hrev.
  assert (Hsame : handle_key s key = s).
  { rewrite (handle_key_arrow s key d Hk). by rewrite decide_True. }
  rewrite Hsame. repeat (split; [done|]).
  split; [|split].
  - intros b s' [Hd _]%move_direction. split; [done|].
    intros Hn. by rewrite Hd, Hn.
  - intros key' d' Hk' Hne.
    rewrite (handle_key_arrow s key' d' Hk').
    rewrite decide_False by congruence. done.
  - intros events ok s1 b s' Hq (nd & -> & Hnd)%handle_keys_pending
      [Hd _]%move_direction.
    rewrite Hd. simpl.
    assert (Hu : is_unit (_direction s)).
    { apply opposite_swap in Hrev. rewrite Hrev.
      eauto using is_unit_opposite, key_direction_unit. }
    destruct Hnd as [-> | (d' & -> & _ & Hne)].
    + destruct (next_direction s) as [q|]; simpl; [congruence|].
      rewrite Hrev. by apply is_unit_not_opposite.
    + simpl. congruence.
Qed.

End Direction.

(** ** The invariant of the loop of [main] *)

Section Invariant.

Import GameController SnakeInternal.

Lemma body_inv_ext (s s' : t) :
  _position s' = _position s -> _size s' = _size s ->
  _positions s' = _positions s -> _tail_cache s' = _tail_cache s ->
  _direction s' = _direction s -> next_direction s' = next_direction s ->
  body_inv s -> body_inv s'.
Proof.
  intros Hp Hz Hl Hc Hd Hn [].
  split; unfold synced in *; by rewrite ?Hp, ?Hz, ?Hl, ?Hc, ?Hd, ?Hn.
Qed.

Lemma body_inv_draw (s : t) : body_inv s -> body_inv (draw s).
Proof.
  unfold draw, _erase_last. destruct (_last s); [|done].
  by apply body_inv_ext.
Qed.

Lemma body_inv_increase (s : t) : body_inv s -> body_inv (increase s).
Proof. by apply body_inv_ext. Qed.

Lemma reset_frame (s : t) :
  _position (reset s) = _position s /\ _positions (reset s) = [] /\
  _tail_cache (reset s) = ∅ /\ next_direction (reset s) = None /\
  _direction (reset s) = RIGHT /\ _size (reset s) = _size s.
Proof. unfold reset, _erase_last. by destruct (_last s). Qed.

Lemma body_inv_reset (s : t) : body_inv s -> body_inv (reset s).
Proof.
  intros [].
  destruct (reset_frame s) as (Ep & El & Ec & En & Ed & Ez).
  split; unfold synced; rewrite ?Ep, ?El, ?Ec, ?En, ?Ed, ?Ez; try done.
  - constructor.
  - unfold is_unit. tauto.
Qed.

Lemma draw_frame (s : t) :
  _position (draw s) = _position s /\ _positions (draw s) = _positions s /\
  _tail_cache (draw s) = _tail_cache s /\
  next_direction (draw s) = next_direction s.
Proof. unfold draw, _erase_last. by destruct (_last s). Qed.

Lemma handle_keys_inv (events : list Event) (s : t) (ok : bool) (s1 : t) :
  body_inv s -> handle_keys s events = (ok, s1) ->
  body_inv s1 /\ _position s1 = _position s /\
  _positions s1 = _positions s /\ _tail_cache s1 = _tail_cache s.
Proof.
  intros Hinv (nd & -> & Hnd)%handle_keys_pending.
  split; [|done]. destruct Hinv. split; try done.
  simpl. intros d ->.
  destruct Hnd as [Hnd | (d' & [= ->] & Hu & _)]; [|done].
  symmetry in Hnd. eauto.
Qed.

Lemma shift_segments_inv (s : t) :
  synced s -> NoDup (_positions s) -> head_free s ->
  exists s1, shift_segments s = Some s1 /\
    synced s1 /\ NoDup (_positions s1) /\ _increase s1 = false.
Proof.
  unfold synced, head_free. intros Hsync Hnd Hfree.
  destruct (_increase s) eqn:Hi.
  - rewrite shift_segments_grow by done. eexists. split; [done|].
    unfold synced. simpl. rewrite Hsync.
    split; [apply (comm_L (∪))|]. split; [by constructor | done].
  - destruct (list_nil_or_snoc (_positions s)) as [E | (rest & lst & E)].
    + rewrite shift_segments_alone by done. eexists. split; [done|].
      unfold synced. simpl. by rewrite Hi.
    + rewrite (shift_segments_drop s rest lst) by done.
      rewrite E in *. apply NoDup_app in Hnd as (Hnd & Hlst & _).
      rewrite decide_True
        by (rewrite Hsync, elem_of_list_to_set, elem_of_app,
              list_elem_of_singleton; by right).
      eexists. split; [done|]. unfold synced. simpl.
      split; [|split; [|done]].
      * rewrite Hsync. apply set_eq. intros p.
        rewrite !elem_of_union, elem_of_difference, !elem_of_list_to_set,
          elem_of_app, !elem_of_singleton, list_elem_of_singleton.
        split; [intros [[[Hp | ->] Hne] | ->]; tauto|].
        intros [-> | Hp]; [tauto|]. left. split; [tauto|].
        intros ->. by apply (Hlst lst), list_elem_of_singleton.
      * constructor; [|done].
        intros Hin. apply Hfree, elem_of_app. by left.
Qed.

Lemma next_head_moves (s : t) :
  _size s = GRID_SIZE -> on_grid (_position s) -> is_unit (_direction s) ->
  _get_next_head s ≠ _position s.
Proof.
  intros Hsize Hcell Hd Heq.
  destruct (next_head_on_grid s Hsize Hcell Hd) as (_ & Hwx & Hwy).
  rewrite Heq in Hwx, Hwy. apply is_unit_cases in Hd.
  unfold wrapped, on_grid, SCREEN_WIDTH, SCREEN_HEIGHT, GRID_SIZE in *.
  destruct (_position s) as [x y], (_direction s) as [dx dy].
  simpl in *. lia.
Qed.

(** On a body that satisfies the invariant [move] does not raise; the
    invariant holds again, whether the body collided or not. *)
Lemma move_inv (s : t) :
  body_inv s -> head_free s ->
  exists b s' s1,
    move s = Some (b, s') /\
    shift_segments (commit_direction s) = Some s1 /\
    s' = set_position s1 (_get_next_head s1) /\
    body_inv s' /\ _increase s' = false /\ next_direction s' = None /\
    (b = true <-> _position s' ∈ _tail_cache s') /\
    (b = true <-> _position s' ∈ _positions s') /\
    _position s' ≠ _position s.
Proof.
  intros Hinv Hfree. destruct Hinv as [Hsync Hnd Hsize Hdir Hpend Hcell].
  destruct (shift_segments_inv (commit_direction s)) as (s1 & Hs & Hs1 & Hn1 & Hi1);
    [done..|].
  destruct (shift_segments_frame _ _ Hs) as (Hp & Hz & Hd & Hn).
  simpl in Hp, Hz, Hn.
  assert (Hu : is_unit (_direction s1)).
  { rewrite Hd. simpl. destruct (next_direction s) as [d|]; eauto. }
  exists (bool_decide (_get_next_head s1 ∈ _tail_cache s1)),
         (set_position s1 (_get_next_head s1)), s1.
  split; [apply move_Some; eauto|]. do 2 (split; [done|]).
  split; [|split; [done|split; [simpl; by rewrite Hn|]]].
  - split; simpl; try done.
    + by rewrite Hz.
    + by rewrite Hn.
    + apply next_head_on_grid; [by rewrite Hz | by rewrite Hp | done].
  - simpl. rewrite bool_decide_eq_true.
    split; [done|]. split.
    + by rewrite Hs1, elem_of_list_to_set.
    + rewrite <- Hp. apply next_head_moves;
        [by rewrite Hz | by rewrite Hp | done].
Qed.

Lemma main_init_inv : tick_inv main_init.
Proof.
  split; simpl.
  - split; simpl; try done.
    + constructor.
    + unfold is_unit. tauto.
  - unfold head_free. simpl. apply not_elem_of_nil.
  - done.
Qed.

Lemma tick_preserves (g : GameController.t) (events : list Event)
    (rnd : Samples) (g' : GameController.t) (rnd' : Samples) :
  tick_inv g -> tick g events rnd = Next g' rnd' -> tick_inv g'.
Proof.
  intros [Hinv Hfree Hpend]. unfold tick.
  destruct (handle_keys (snake g) events) as [ok s1] eqn:Hk.
  destruct ok; simpl; [|done].
  destruct (handle_keys_inv _ _ _ _ Hinv Hk) as (Hinv1 & Hp1 & Hl1 & _).
  assert (Hfree1 : head_free s1) by (unfold head_free; by rewrite Hp1, Hl1).
  destruct (move_inv s1 Hinv1 Hfree1)
    as (b & s' & s1' & -> & _ & _ & Hinv' & _ & Hn' & _ & Hb & _).
  destruct b.
  - destruct (randomize_apple (reset s') (apple g) rnd) as [[a r]|]; [|done].
    intros [= <- _]. destruct (draw_frame (reset s')) as (Ep & El & _ & En).
    destruct (reset_frame s') as (_ & El' & _ & En' & _).
    split; simpl.
    + by apply body_inv_draw, body_inv_reset.
    + unfold head_free. rewrite El, El'. apply not_elem_of_nil.
    + by rewrite En.
  - unfold validate_snake_head. simpl.
    assert (Hout : _position s' ∉ _positions s').
    { intros Hin. by apply Hb in Hin. }
    destruct (decide (get_head_position s' = AppleInternal._position (apple g))).
    + destruct (randomize_apple (increase s') (apple g) rnd) as [[a r]|];
        [|done].
      intros [= <- _]. destruct (draw_frame (increase s')) as (Ep & El & _ & En).
      split; simpl.
      * by apply body_inv_draw, body_inv_increase.
      * unfold head_free. by rewrite Ep, El.
      * by rewrite En.
    + intros [= <- _]. destruct (draw_frame s') as (Ep & El & _ & En).
      split; simpl.
      * by apply body_inv_draw.
      * unfold head_free. by rewrite Ep, El.
      * by rewrite En.
Qed.

Lemma reachable_inv (g : GameController.t) : reachable g -> tick_inv g.
Proof.
  induction 1 as [|g events rnd g' rnd' _ IH Ht];
    eauto using main_init_inv, tick_preserves.
Qed.

Lemma run_reachable (inputs : list (list Event * Samples))
    (g g' : GameController.t) :
  reachable g -> run g inputs = Some g' -> reachable g'.
Proof.
  revert g. induction inputs as [|[events rnd] inputs IH]; intros g Hg; simpl.
  - by intros [= <-].
  - destruct (tick g events rnd) as [| | |g1 r1] eqn:Ht; try done.
    apply IH. by eapply reachable_tick.
Qed.

End Invariant.

(** ** The loop of [main]: index, head and collision test *)

Section LoopClaims.

Import GameController SnakeInternal.

Lemma sample_game_reachable : reachable sample_game.
Proof.
  apply (run_reachable sample_inputs main_init); [constructor|].
  vm_compute. reflexivity.
Qed.

Lemma sample_game_move :
  move (snake sample_game) = Some (false, sample_body_moved).
Proof. vm_compute. reflexivity. Qed.

(** C3: in every state the program reaches after complete iterations of
    its loop, the occupancy index is the set of the trailing segments;
    it still is after the events of the next iteration are handled, so
    before [move]; [move] does not raise there, and the index is the set
    of the segments after it, and after the [reset], [increase] and
    [draw] that may follow. *)
Theorem occupancy_index_synced (g : GameController.t) :
  reachable g ->
  synced (snake g) /\
  forall events ok s, handle_keys (snake g) events = (ok, s) ->
    synced s /\
    exists b s', move s = Some (b, s') /\ synced s' /\
      synced (reset s') /\ synced (increase s') /\ synced (draw s').
Proof.
  intros [Hinv Hfree _]%reachable_inv.
  split; [by destruct Hinv|].
  intros events ok s Hk.
  destruct (handle_keys_inv _ _ _ _ Hinv Hk) as (Hinv1 & Hp1 & Hl1 & _).
  split; [by destruct Hinv1|].
  assert (Hfree1 : head_free s) by (unfold head_free; by rewrite Hp1, Hl1).
  destruct (move_inv s Hinv1 Hfree1) as (b & s' & _ & Hm & _ & _ & Hinv' & _).
  exists b, s'. split; [done|].
  split; [by destruct Hinv'|].
  split; [by destruct (body_inv_reset s' Hinv')|].
  split; [by destruct (body_inv_increase s' Hinv')|].
  by destruct (body_inv_draw s' Hinv').
Qed.

(** The state after the sample run is reached by the program, and its
    index is the set of its one segment. *)
Lemma occupancy_index_synced_sample :
  reachable sample_game /\ synced (snake sample_game).
Proof.
  split; [exact sample_game_reachable|].
  exact (proj1 (occupancy_index_synced sample_game sample_game_reachable)).
Defined.

(** C4: in every state the program reaches after complete iterations of
    its loop, the head is neither among the trailing segments nor in the
    occupancy index; in the next iteration, when [move] reports a
    collision the [reset] that follows leaves the index empty and the
    head outside it, and when it reports none the new head is outside
    the index and the segments. *)
Theorem head_outside_body (g : GameController.t) :
  reachable g ->
  (_position (snake g) ∉ _positions (snake g)) /\
  (_position (snake g) ∉ _tail_cache (snake g)) /\
  forall events ok s, handle_keys (snake g) events = (ok, s) ->
    exists b s', move s = Some (b, s') /\
      (b = true ->
         _tail_cache (reset s') = ∅ /\
         (_position (reset s') ∉ _tail_cache (reset s')) /\
         (_position (reset s') ∉ _positions (reset s'))) /\
      (b = false ->
         (_position s' ∉ _tail_cache s') /\ (_position s' ∉ _positions s')).
Proof.
  intros [Hinv Hfree _]%reachable_inv.
  split; [done|]. split.
  { rewrite (inv_synced _ Hinv). by rewrite elem_of_list_to_set. }
  intros events ok s Hk.
  destruct (handle_keys_inv _ _ _ _ Hinv Hk) as (Hinv1 & Hp1 & Hl1 & _).
  assert (Hfree1 : head_free s) by (unfold head_free; by rewrite Hp1, Hl1).
  destruct (move_inv s Hinv1 Hfree1)
    as (b & s' & _ & Hm & _ & _ & _ & _ & _ & Hc & Hl & _).
  exists b, s'. split; [done|]. split.
  - intros _. destruct (reset_frame s') as (_ & -> & -> & _).
    split; [done|]. split; [apply not_elem_of_empty | apply not_elem_of_nil].
  - intros ->. split; intros Hin; [by apply Hc in Hin | by apply Hl in Hin].
Qed.

(** In the state after the sample run the head is not a segment. *)
Lemma head_outside_body_sample :
  reachable sample_game /\
  _position (snake sample_game) ∉ _positions (snake sample_game).
Proof.
  split; [exact sample_game_reachable|].
  exact (proj1 (head_outside_body sample_game sample_game_reachable)).
Defined.

(** C5: whenever [move] returns, it returns true exactly when the new
    head is in the occupancy index as the update of the segments of that
    same [move] left it, the head not yet being part of it; in the states
    the program reaches this is exactly when the new head is one of the
    trailing segments, and the new head is never the position the head
    had before the move, which that update may have put in the index. *)
Theorem collision_test (s : t) (b : bool) (s' : t) :
  move s = Some (b, s') ->
  (exists s1, shift_segments (commit_direction s) = Some s1 /\
     _position s' = _get_next_head s1 /\
     _tail_cache s' = _tail_cache s1 /\ _positions s' = _positions s1 /\
     (b = true <-> _get_next_head s1 ∈ _tail_cache s1)) /\
  (forall g events ok,
     reachable g -> handle_keys (snake g) events = (ok, s) ->
     (b = true <-> _position s' ∈ _positions s') /\
     _position s' ≠ _position s).
Proof.
  intros Hm. split.
  - apply move_Some in Hm as (s1 & Hs & -> & ->).
    exists s1. simpl. by rewrite bool_decide_eq_true.
  - intros g events ok [Hinv Hfree _]%reachable_inv Hk.
    destruct (handle_keys_inv _ _ _ _ Hinv Hk) as (Hinv1 & Hp1 & Hl1 & _).
    assert (Hfree1 : head_free s) by (unfold head_free; by rewrite Hp1, Hl1).
    destruct (move_inv s Hinv1 Hfree1)
      as (b0 & s0 & _ & Hm0 & _ & _ & _ & _ & _ & _ & Hl & Hne).
    rewrite Hm in Hm0. by injection Hm0 as <- <-.
Qed.

(** The next [move] of the sample run reports no collision, and the head
    has left its cell. *)
Lemma collision_test_sample :
  move (snake sample_game) = Some (false, sample_body_moved) /\
  (false = true <-> _position sample_body_moved ∈ _positions sample_body_moved) /\
  _position sample_body_moved ≠ _position (snake sample_game).
Proof.
  split; [exact sample_game_move|].
  exact (proj2 (collision_test _ _ _ sample_game_move)
               sample_game [] true sample_game_reachable eq_refl).
Defined.

End LoopClaims.

(** ** The target: relocation *)

Section Relocation.

Import GameController AppleInternal.

Local Abbreviation cache := SnakeInternal._tail_cache.

Lemma place_cell (a : t) (x y : Z) :
  _position (place a x y) = cell_of (_size a) (x, y).
Proof. reflexivity. Qed.

(** The loop of [randomize_position] leaves with a position other than
    [last_pos]; unless it leaves at once, that position is the cell of
    the last pair it drew. *)
Lemma randomize_position_loop_spec (rnd : Samples) (last_pos : Point)
    (a a' : t) (rnd' : Samples) :
  randomize_position_loop last_pos a rnd = Some (a', rnd') ->
  _position a' ≠ last_pos /\ _size a' = _size a /\
  _surface a' = _surface a /\
  ((a' = a /\ rnd' = rnd) \/
   exists pre xy, rnd = pre ++ xy :: rnd' /\
                  _position a' = cell_of (_size a) xy).
Proof.
  revert a. induction rnd as [|[x y] rnd IH]; intros a; simpl;
    destruct (decide (last_pos = _position a)) as [Heq | Hne];
    try done;
    try (intros [= <- <-]; split_and!; [congruence | done | done | by left]).
  intros (Hp & Hz & Hs & Hcase)%IH.
  split; [done|]. split; [done|]. split; [done|]. right.
  destruct Hcase as [[-> ->] | (pre & xy & -> & Hc)].
  - by exists [], (x, y).
  - by exists ((x, y) :: pre), xy.
Qed.

Lemma randomize_position_spec (a : t) (rnd : Samples) (p : Point)
    (a' : t) (rnd' : Samples) :
  randomize_position a rnd = Some (p, a', rnd') ->
  p = _position a' /\ p ≠ _position a /\ _size a' = _size a /\
  _surface a' = _surface a /\
  exists pre xy, rnd = pre ++ xy :: rnd' /\ p = cell_of (_size a) xy.
Proof.
  unfold randomize_position.
  destruct (randomize_position_loop (_position a) a rnd) as [[a1 r1]|] eqn:E;
    [|done].
  intros [= <- <- <-].
  apply randomize_position_loop_spec in E as (Hp & Hz & Hs & Hcase).
  destruct Hcase as [[-> _] | Hcase]; [done|]. eauto 10.
Qed.

(** What a relocation guarantees: the new cell is not occupied by the
    body, and it differs from the cell the apple was on before the last
    call of [randomize_position], which is the cell it started from or a
    cell of the body that was drawn and rejected. *)
Lemma randomize_apple_loop_spec (fuel : nat) (s : SnakeInternal.t)
    (a : t) (rnd : Samples) (a' : t) (rnd' : Samples) :
  randomize_apple_loop fuel s a rnd = Some (a', rnd') ->
  (_position a' ∉ cache s) /\ _size a' = _size a /\
  _surface a' = _surface a /\
  exists a0 rnd0,
    (a0 = a \/ _position a0 ∈ cache s) /\
    randomize_position a0 rnd0 = Some (_position a', a', rnd').
Proof.
  revert a rnd. induction fuel as [|fuel IH]; intros a rnd; simpl; [done|].
  destruct (randomize_position a rnd) as [[[p a1] r1]|] eqn:E; [|done].
  destruct (randomize_position_spec _ _ _ _ _ E) as (-> & _ & Hz & Hs & _).
  unfold SnakeInternal.is_point_in_snake. case_bool_decide as Hin; simpl.
  - intros (Hout & Hz' & Hs' & a0 & rnd0 & Ha0 & Hr)%IH.
    split; [done|]. split; [congruence|]. split; [congruence|].
    exists a0, rnd0. split; [|done].
    destruct Ha0 as [-> | Ha0]; by right.
  - intros [= <- <-]. eauto 10.
Qed.

(** The fuel that [randomize_apple] gives its loop is never what stops
    it: any larger amount gives the same result. *)
Lemma randomize_apple_loop_fuel (n m : nat) (s : SnakeInternal.t)
    (a : t) (rnd : Samples) :
  (List.length rnd < n)%nat -> (List.length rnd < m)%nat ->
  randomize_apple_loop n s a rnd = randomize_apple_loop m s a rnd.
Proof.
  revert m a rnd. induction n as [|n IH]; intros m a rnd Hn Hm; [lia|].
  destruct m as [|m]; [lia|]. simpl.
  destruct (randomize_position a rnd) as [[[p a1] r1]|] eqn:E; [|done].
  destruct (randomize_position_spec _ _ _ _ _ E)
    as (_ & _ & _ & _ & pre & xy & -> & _).
  rewrite length_app in Hn, Hm. simpl in Hn, Hm.
  destruct (negb (SnakeInternal.is_point_in_snake s p)); [done|].
  apply IH; lia.
Qed.

(** A relocation never ends on the body, and it ends on a cell other than
    the one the apple was on before the last call of [randomize_position];
    that cell is the one it started from when no draw was rejected, as
    after a [reset], which empties the index. *)
Lemma randomize_apple_spec (s : SnakeInternal.t) (a : t) (rnd : Samples)
    (a' : t) (rnd' : Samples) :
  randomize_apple s a rnd = Some (a', rnd') ->
  (_position a' ∉ cache s) /\
  (exists a0, (a0 = a \/ _position a0 ∈ cache s) /\
              _position a' ≠ _position a0) /\
  (cache s = ∅ -> _position a' ≠ _position a).
Proof.
  intros (Hout & _ & _ & a0 & rnd0 & Ha0 & Hr)%randomize_apple_loop_spec.
  apply randomize_position_spec in Hr as (_ & Hne & _).
  split; [done|]. split; [by exists a0|].
  intros Hempty. destruct Ha0 as [-> | Hin]; [done|].
  rewrite Hempty in Hin. by apply not_elem_of_empty in Hin.
Qed.

(** C8 fails on the program: in the state the sample run reaches, the
    head moves onto the apple at (360, 240); the first pair drawn falls
    on the trailing segment and is rejected, and the second pair, the
    cell the apple was on when the relocation began, is then accepted. *)
Theorem relocation_returns_previous_cell :
  reachable sample_game /\
  SnakeInternal.move (snake sample_game) = Some (false, sample_body_moved) /\
  SnakeInternal._position sample_body_moved = _position (apple sample_game) /\
  randomize_apple (SnakeInternal.increase sample_body_moved)
                  (apple sample_game) [(340, 240); (360, 240)]
    = Some (apple sample_game, []) /\
  exists g', tick sample_game [] [(340, 240); (360, 240)] = Next g' [] /\
             _position (apple g') = _position (apple sample_game).
Proof.
  split; [exact sample_game_reachable|].
  split; [exact sample_game_move|].
  split; [reflexivity|]. split; [vm_compute; reflexivity|].
  eexists. split; [vm_compute; reflexivity|]. reflexivity.
Qed.

(** *** The cells of the playfield *)

Lemma elem_of_grid_cells (c : Point) : c ∈ grid_cells <-> on_grid c.
Proof.
  unfold grid_cells, on_grid. rewrite list_elem_of_bind. split.
  - intros (x & (y & Hc & Hy%elem_of_seqZ)%list_elem_of_bind & Hx%elem_of_seqZ).
    apply list_elem_of_singleton in Hc as ->.
    unfold GRID_WIDTH, GRID_HEIGHT, SCREEN_WIDTH, SCREEN_HEIGHT, GRID_SIZE in *.
    simpl in *. rewrite !Z.mod_mul by lia.
    Z.div_mod_to_equations. lia.
  - intros [[Hx Hxa] [Hy Hya]].
    unfold GRID_WIDTH, GRID_HEIGHT, SCREEN_WIDTH, SCREEN_HEIGHT, GRID_SIZE in *.
    exists (c.1 / 20). rewrite elem_of_seqZ, list_elem_of_bind.
    split; [|simpl; Z.div_mod_to_equations; lia].
    exists (c.2 / 20). rewrite elem_of_seqZ, list_elem_of_singleton.
    split; [|simpl; Z.div_mod_to_equations; lia].
    destruct c as [x y]. simpl in *.
    f_equal; Z.div_mod_to_equations; lia.
Qed.

Lemma NoDup_grid_cells : NoDup grid_cells.
Proof.
  unfold grid_cells, GRID_SIZE. apply NoDup_bind; [| |apply NoDup_seqZ].
  - intros x1 x2 c _ _
      (y1 & ->%list_elem_of_singleton & _)%list_elem_of_bind
      (y2 & [= H _]%list_elem_of_singleton & _)%list_elem_of_bind.
    lia.
  - intros x _. apply NoDup_bind; [| |apply NoDup_seqZ].
    + intros y1 y2 c _ _ ->%list_elem_of_singleton
        [= H]%list_elem_of_singleton.
      lia.
    + intros y _. apply NoDup_singleton.
Qed.

Lemma length_grid_cells :
  Z.of_nat (List.length grid_cells) = GRID_WIDTH * GRID_HEIGHT.
Proof. vm_compute. reflexivity. Qed.

(** A pair of draws in the range of [randint] falls on a cell of the
    playfield, and every cell of the playfield is such a pair. *)
Lemma cell_of_in_range (a : t) (xy : Z * Z) :
  _size a = GRID_SIZE -> _surface a = screen ->
  in_range a xy -> on_grid (cell_of (_size a) xy).
Proof.
  unfold in_range, on_grid, cell_of. intros -> ->.
  unfold screen, SCREEN_WIDTH, SCREEN_HEIGHT, GRID_SIZE. simpl.
  intros [Hx Hy]. split; split; Z.div_mod_to_equations; lia.
Qed.

Lemma on_grid_in_range (a : t) (c : Point) :
  _size a = GRID_SIZE -> _surface a = screen ->
  on_grid c -> in_range a c /\ cell_of (_size a) c = c.
Proof.
  unfold in_range, on_grid, cell_of. intros -> ->.
  unfold screen, SCREEN_WIDTH, SCREEN_HEIGHT, GRID_SIZE. simpl.
  intros [[Hx Hxa] [Hy Hya]]. rewrite Hxa, Hya, !Z.sub_0_r.
  split; [|by destruct c].
  split; Z.div_mod_to_equations; lia.
Qed.

(** When the cells outnumber the cells of the body and the cell of the
    apple, one cell of the playfield is neither. *)
Lemma free_cell (X : gset Point) (p0 : Point) :
  Z.of_nat (size X) + 1 < GRID_WIDTH * GRID_HEIGHT ->
  exists c, on_grid c /\ (c ∉ X) /\ c ≠ p0.
Proof.
  intros Hsize.
  destruct (decide (Forall (fun c => c ∈ X ∪ {[p0]}) grid_cells))
    as [Hall | Hex].
  - exfalso. rewrite Forall_forall in Hall.
    assert (Hsub : list_to_set grid_cells ⊆ X ∪ {[p0]}).
    { intros c Hc%elem_of_list_to_set. by apply Hall. }
    apply subseteq_size in Hsub.
    rewrite size_list_to_set in Hsub by apply NoDup_grid_cells.
    rewrite size_union_alt in Hsub.
    assert (Hone : (size ({[p0]} ∖ X : gset Point) <= 1)%nat).
    { rewrite <- (size_singleton (C := gset Point) p0).
      apply subseteq_size, subseteq_difference_l. done. }
    pose proof length_grid_cells. lia.
  - apply not_Forall_Exists in Hex; [|apply _].
    apply Exists_exists in Hex as (c & Hc%elem_of_grid_cells & Hout).
    exists c. split; [done|]. simpl in Hout.
    rewrite elem_of_union, elem_of_singleton in Hout. tauto.
Qed.

(** *** Leaving the retry loops *)

Lemma randomize_position_loop_exit (last_pos : Point) (a : t) (rnd : Samples) :
  last_pos ≠ _position a ->
  randomize_position_loop last_pos a rnd = Some (a, rnd).
Proof. intros Hne. destruct rnd; simpl; by rewrite decide_False. Qed.

Section FirstFreeCell.

Variables (s : SnakeInternal.t) (p0 : Point) (sz : Z).

(** The draws that end the relocation of an apple of size [sz] that
    started on [p0]. *)
Let ends (xy : Z * Z) : Prop :=
  (cell_of sz xy ∉ cache s) /\ cell_of sz xy ≠ p0.

Lemma randomize_position_loop_ends (rnd : Samples) (last_pos : Point)
    (a : t) :
  _size a = sz -> Exists ends rnd ->
  last_pos = p0 \/ last_pos ∈ cache s ->
  exists a' rnd',
    randomize_position_loop last_pos a rnd = Some (a', rnd') /\
    (_position a' ∉ cache s \/ Exists ends rnd').
Proof.
  intros Hz Hex Hlast. revert a Hz.
  induction Hex as [[x y] rnd [Hout Hne] | [x y] rnd Hex IH]; intros a Hz;
    simpl; destruct (decide (last_pos = _position a)) as [Heq | Hneq];
    try (eexists _, _; split; [done|]; right; by constructor).
  - rewrite randomize_position_loop_exit.
    + eexists _, _. split; [done|]. left. by rewrite place_cell, Hz.
    + rewrite place_cell, Hz. destruct Hlast; congruence.
  - apply IH. by rewrite <- Hz.
Qed.

(** The loops are left at the first such draw at the latest. *)
Lemma randomize_apple_loop_ends (fuel : nat) (rnd : Samples) (a : t) :
  (List.length rnd < fuel)%nat -> _size a = sz -> Exists ends rnd ->
  _position a = p0 \/ _position a ∈ cache s ->
  exists a' rnd', randomize_apple_loop fuel s a rnd = Some (a', rnd').
Proof.
  revert rnd a. induction fuel as [|fuel IH]; intros rnd a Hlen Hz Hex Hpos;
    [lia|]. simpl.
  destruct (randomize_position_loop_ends rnd (_position a) a Hz Hex Hpos)
    as (a1 & r1 & Hloop & Hcase).
  assert (E : randomize_position a rnd = Some (_position a1, a1, r1)).
  { unfold randomize_position. by rewrite Hloop. }
  rewrite E.
  destruct (randomize_position_spec _ _ _ _ _ E)
    as (_ & _ & Hz1 & _ & pre & xy & -> & _).
  unfold SnakeInternal.is_point_in_snake. case_bool_decide as Hin; simpl;
    [|eauto].
  destruct Hcase as [Hout | Hex1]; [done|].
  rewrite length_app in Hlen. simpl in Hlen.
  apply IH; [lia | congruence | done | by right].
Qed.

End FirstFreeCell.

(** On a body that covers the playfield no draw ends the loops. *)
Lemma randomize_apple_loop_full (fuel : nat) (s : SnakeInternal.t)
    (a : t) (rnd : Samples) :
  _size a = GRID_SIZE -> _surface a = screen ->
  (forall c, on_grid c -> c ∈ cache s) ->
  Forall (in_range a) rnd ->
  randomize_apple_loop fuel s a rnd = None.
Proof.
  intros Hz Hs Hfull. revert a rnd Hz Hs.
  induction fuel as [|fuel IH]; intros a rnd Hz Hs Hrnd; simpl; [done|].
  destruct (randomize_position a rnd) as [[[p a1] r1]|] eqn:E; [|done].
  destruct (randomize_position_spec _ _ _ _ _ E)
    as (_ & _ & Hz1 & Hs1 & pre & xy & -> & ->).
  apply Forall_app in Hrnd as [_ [Hxy Hr1]%Forall_cons].
  unfold SnakeInternal.is_point_in_snake.
  rewrite bool_decide_eq_true_2
    by (apply Hfull; by apply cell_of_in_range).
  simpl. apply IH; [congruence | congruence |].
  eapply Forall_impl; [exact Hr1|].
  unfold in_range. by rewrite Hz1, Hs1.
Qed.

Lemma full_body_covers (c : Point) : on_grid c -> c ∈ cache full_body.
Proof.
  intros Hc%elem_of_grid_cells.
  change (c ∈ (list_to_set grid_cells : gset Point)).
  by apply elem_of_list_to_set.
Qed.

(** C9: for an apple of the program (cell size 20 on the 640 by 480
    screen), when the cells of the playfield outnumber the cells of the
    body together with the cell of the apple, some pair that [randint]
    can return frees the apple, the relocation ends on any list of draws
    that contains such a pair, and so it ends on some list of draws in
    range; when the body covers the playfield, which breaks that
    condition, the relocation ends on no list of draws in range, however
    long and whatever the fuel; and there is such a body. *)
Theorem relocation_termination (s : SnakeInternal.t) (a : t) :
  _size a = GRID_SIZE -> _surface a = screen ->
  (Z.of_nat (size (cache s)) + 1 < GRID_WIDTH * GRID_HEIGHT ->
     (exists xy, in_range a xy /\ frees s a xy) /\
     (forall rnd, Exists (frees s a) rnd ->
        exists a' rnd', randomize_apple s a rnd = Some (a', rnd')) /\
     (exists rnd a' rnd', Forall (in_range a) rnd /\
        randomize_apple s a rnd = Some (a', rnd'))) /\
  ((forall c, on_grid c -> c ∈ cache s) ->
     ~ (Z.of_nat (size (cache s)) + 1 < GRID_WIDTH * GRID_HEIGHT) /\
     forall rnd, Forall (in_range a) rnd ->
       randomize_apple s a rnd = None /\
       forall fuel, randomize_apple_loop fuel s a rnd = None) /\
  (exists s0,
     ~ (Z.of_nat (size (cache s0)) + 1 < GRID_WIDTH * GRID_HEIGHT) /\
     forall rnd, Forall (in_range a) rnd -> randomize_apple s0 a rnd = None).
Proof.
  intros Hz Hs.
  assert (Hends : forall s rnd, Exists (frees s a) rnd ->
            exists a' rnd', randomize_apple s a rnd = Some (a', rnd')).
  { intros s1 rnd Hex. unfold randomize_apple.
    apply (randomize_apple_loop_ends s1 (_position a) (_size a));
      [lia | done | exact Hex | by left]. }
  assert (Hfree : forall s,
            Z.of_nat (size (cache s)) + 1 < GRID_WIDTH * GRID_HEIGHT ->
            exists xy, in_range a xy /\ frees s a xy).
  { intros s1 (c & Hc & Hout & Hne)%(free_cell _ (_position a)).
    destruct (on_grid_in_range a c Hz Hs Hc) as [Hr Hcell].
    exists c. split; [done|]. unfold frees. by rewrite Hcell. }
  assert (Hfull : forall s, (forall c, on_grid c -> c ∈ cache s) ->
            forall rnd, Forall (in_range a) rnd ->
              randomize_apple s a rnd = None /\
              forall fuel, randomize_apple_loop fuel s a rnd = None).
  { intros s1 Hall rnd Hrnd.
    split; [|intros fuel]; by apply randomize_apple_loop_full. }
  assert (Hbreaks : forall s, (forall c, on_grid c -> c ∈ cache s) ->
            ~ (Z.of_nat (size (cache s)) + 1 < GRID_WIDTH * GRID_HEIGHT)).
  { intros s1 Hall Hsize. destruct (Hfree s1 Hsize) as (xy & Hr & Hxy).
    destruct (Hends s1 [xy]) as (a' & rnd' & Ha'); [by constructor|].
    destruct (Hfull s1 Hall [xy]) as [Hnone _]; [by constructor|].
    congruence. }
  split; [|split].
  - intros Hsize. split; [by apply Hfree|]. split; [by apply Hends|].
    destruct (Hfree s Hsize) as (xy & Hr & Hxy).
    destruct (Hends s [xy]) as (a' & rnd' & Ha'); [by constructor|].
    exists [xy], a', rnd'. split; [|done]. by constructor.
  - intros Hall. split; [by apply Hbreaks | by apply Hfull].
  - exists full_body. split; [apply Hbreaks, full_body_covers|].
    intros rnd Hrnd. by apply Hfull; [apply full_body_covers|].
Qed.

(** With one segment the relocation can end; on the body that covers the
    playfield two draws in range do not end it. *)
Lemma relocation_termination_sample :
  (_size (apple sample_game) = GRID_SIZE /\
   _surface (apple sample_game) = screen /\
   Z.of_nat (size (cache (snake sample_game))) + 1 < GRID_WIDTH * GRID_HEIGHT /\
   exists rnd a' rnd', Forall (in_range (apple sample_game)) rnd /\
     randomize_apple (snake sample_game) (apple sample_game) rnd
       = Some (a', rnd')) /\
  ((forall c, on_grid c -> c ∈ cache full_body) /\
   randomize_apple full_body (apple sample_game) [(340, 240); (360, 240)]
     = None).
Proof.
  assert (Hsize : Z.of_nat (size (cache (snake sample_game))) + 1
                  < GRID_WIDTH * GRID_HEIGHT).
  { vm_compute. reflexivity. }
  pose proof full_body_covers as Hfull.
  split.
  - do 3 (split; [done|]).
    exact (proj2 (proj2 (proj1
             (relocation_termination (snake sample_game) (apple sample_game)
                eq_refl eq_refl) Hsize))).
  - split; [done|].
    refine (proj1 (proj2 (proj1 (proj2
             (relocation_termination full_body (apple sample_game)
                eq_refl eq_refl)) Hfull) _ _)).
    repeat constructor; vm_compute; congruence.
Defined.

End Relocation.

(** ** Instances on the sample run *)

Section Instances.

Import GameController SnakeInternal.

(** C1, as the specification has it, fails when another direction is
    queued: in the state the sample run reaches, with RIGHT active, the
    events UP and LEFT of one iteration queue UP and drop LEFT, and the
    next [move] turns the body UP, so that its direction is not what it
    was. *)
Lemma reverse_intent_after_queued_turn :
  let s := sample_body_queued in
  reachable sample_game /\
  handle_keys (snake sample_game) [KEYDOWN K_UP; KEYDOWN K_LEFT] = (true, s) /\
  key_direction K_LEFT = Some LEFT /\
  LEFT = opposite (_direction s) /\
  exists b s', move (handle_key s K_LEFT) = Some (b, s') /\
               _direction s' ≠ _direction s.
Proof.
  intros s. split; [exact sample_game_reachable|].
  split; [vm_compute; reflexivity|]. split; [reflexivity|].
  split; [reflexivity|]. eexists _, _. split; [vm_compute; reflexivity|].
  vm_compute. congruence.
Qed.

(** C2 fails on the class: on a new body on which [increase] was called,
    [reset] leaves the growth flag set and returns the body unchanged,
    which is not the body [__init__] builds, while on the new body itself
    [reset] changes nothing: of the fields that [SnakeInternal.__init__]
    initialises for the simulation ([_last], [_positions], [_direction],
    [next_direction], [_increase], [_tail_cache]) the flag is the one
    that [reset] does not set back. *)
Theorem reset_leaves_growth_pending :
  let s0 := init GRID_SIZE START_SNAKE_POSITION in
  _increase s0 = false /\
  _increase (reset (increase s0)) = true /\
  reset (increase s0) = increase s0 /\
  reset (increase s0) ≠ s0 /\
  reset s0 = s0.
Proof.
  intros s0. split; [reflexivity|]. split; [reflexivity|].
  split; [reflexivity|]. split; [|reflexivity].
  intros H. apply (f_equal _increase) in H. discriminate H.
Qed.

(** With RIGHT active and UP queued, LEFT is dropped. *)
Lemma reverse_intent_dropped_sample :
  key_direction K_LEFT = Some LEFT /\
  LEFT = opposite (_direction sample_body_queued) /\
  handle_key sample_body_queued K_LEFT = sample_body_queued /\
  next_direction (handle_key sample_body_queued K_LEFT) = Some UP.
Proof.
  split; [reflexivity|]. split; [reflexivity|].
  destruct (reverse_intent_dropped sample_body_queued K_LEFT LEFT
              eq_refl eq_refl) as (Hsame & Hnext & _).
  split; [exact Hsame | exact Hnext].
Defined.

(** [reset] after the next [move] of the sample run finds no growth
    pending. *)
Lemma reset_spec_sample :
  move (snake sample_game) = Some (false, sample_body_moved) /\
  _increase (reset sample_body_moved) = false.
Proof.
  split; [exact sample_game_move|].
  destruct (reset_spec sample_body_moved) as (_ & _ & _ & _ & _ & _ & _ & H).
  exact (H _ _ sample_game_move).
Defined.

(** The next [move] of the sample run keeps the one segment. *)
Lemma advance_length_dynamics_sample :
  _increase (snake sample_game) = false /\
  move (snake sample_game) = Some (false, sample_body_moved) /\
  List.length (_positions sample_body_moved)
    = List.length (_positions (snake sample_game)).
Proof.
  split; [reflexivity|]. split; [exact sample_game_move|].
  destruct (advance_length_dynamics (snake sample_game)) as [H _].
  destruct (H eq_refl) as [Hlen _].
  exact (Hlen _ _ sample_game_move).
Defined.

Lemma sample_body_edge_move :
  move sample_body_edge = Some (false, sample_body_wrapped).
Proof. vm_compute. reflexivity. Qed.

(** From (620, 240) and moving RIGHT the head reappears at (0, 240). *)
Lemma toroidal_wrap_sample :
  _size sample_body_edge = GRID_SIZE /\
  on_grid (_position sample_body_edge) /\
  is_unit (default (_direction sample_body_edge)
                   (next_direction sample_body_edge)) /\
  move sample_body_edge = Some (false, sample_body_wrapped) /\
  _position sample_body_wrapped = (0, 240).
Proof.
  assert (Hcell : on_grid (_position sample_body_edge)) by (by compute).
  assert (Hd : is_unit (default (_direction sample_body_edge)
                                (next_direction sample_body_edge))).
  { right. right. right. reflexivity. }
  split; [reflexivity|]. split; [exact Hcell|]. split; [exact Hd|].
  split; [exact sample_body_edge_move|].
  destruct (toroidal_wrap sample_body_edge false sample_body_wrapped
              eq_refl Hcell Hd sample_body_edge_move)
    as (_ & _ & _ & _ & H).
  exact (H eq_refl eq_refl).
Defined.

(** Three calls of [increase] are one. *)
Lemma grow_idempotent_sample :
  (1 <= 3)%nat /\
  Nat.iter 3 increase (snake sample_game) = increase (snake sample_game).
Proof.
  assert (H : (1 <= 3)%nat) by lia.
  split; [exact H|].
  exact (proj1 (grow_idempotent (snake sample_game) 3 H)).
Defined.

End Instances.


(** * Further properties of the code *)

(** ** Stepping on the torus *)

Section Torus.

Import SnakeInternal.

Lemma next_head_next_cell (s : t) :
  _size s = GRID_SIZE ->
  _get_next_head s = next_cell (_position s) (_direction s).
Proof. intros Hz. unfold next_cell, _get_next_head. simpl. by rewrite Hz. Qed.

Lemma next_cell_modular (p d : Point) :
  on_grid p -> is_unit d ->
  next_cell p d = ((p.1 + d.1 * GRID_SIZE) mod SCREEN_WIDTH,
                   (p.2 + d.2 * GRID_SIZE) mod SCREEN_HEIGHT).
Proof.
  intros [[Hx Hxa] [Hy Hya]] Hd%is_unit_cases.
  unfold next_cell, _get_next_head. destruct p as [x y], d as [dx dy].
  unfold SCREEN_WIDTH, SCREEN_HEIGHT, GRID_SIZE in *. simpl in *.
  repeat match goal with
         | |- context [?a <? ?b] => destruct (Z.ltb_spec a b)
         | |- context [?a >? ?b] => destruct (Z.gtb_spec a b)
         end; f_equal; Z.div_mod_to_equations; lia.
Qed.

Lemma next_cell_on_grid (p d : Point) :
  on_grid p -> is_unit d -> on_grid (next_cell p d).
Proof.
  intros Hp Hd. unfold next_cell.
  by apply (next_head_on_grid (mk p GRID_SIZE None [] d None false ∅)).
Qed.

Lemma next_cell_back (p d : Point) :
  on_grid p -> is_unit d -> next_cell (next_cell p d) (opposite d) = p.
Proof.
  intros Hp Hd.
  rewrite (next_cell_modular (next_cell p d))
    by auto using next_cell_on_grid, is_unit_opposite.
  rewrite (next_cell_modular p d) by done.
  destruct Hp as [[Hx Hxa] [Hy Hya]]. apply is_unit_cases in Hd.
  destruct p as [x y], d as [dx dy].
  unfold SCREEN_WIDTH, SCREEN_HEIGHT, GRID_SIZE, opposite in *. simpl in *.
  f_equal; Z.div_mod_to_equations; lia.
Qed.

(** X1: on a body of the program (cell size 20) whose head is a cell of
    the playfield and whose direction is one of the four units, the next
    head is the head plus one cell along the direction, each coordinate
    taken modulo the extent of the screen. *)
Theorem next_head_modular (s : t) :
  _size s = GRID_SIZE -> on_grid (_position s) -> is_unit (_direction s) ->
  _get_next_head s =
    (((_position s).1 + (_direction s).1 * GRID_SIZE) mod SCREEN_WIDTH,
     ((_position s).2 + (_direction s).2 * GRID_SIZE) mod SCREEN_HEIGHT).
Proof.
  intros Hz Hp Hd. rewrite next_head_next_cell by done.
  by apply next_cell_modular.
Qed.

(** From the leftmost column and moving LEFT the head lands on column 620. *)
Lemma next_head_modular_sample :
  let s := mk (0, 240) GRID_SIZE None [] LEFT None false ∅ in
  _size s = GRID_SIZE /\ on_grid (_position s) /\ is_unit (_direction s) /\
  _get_next_head s = ((0 + -1 * 20) mod 640, (240 + 0 * 20) mod 480).
Proof.
  intros s.
  assert (Hp : on_grid (_position s)) by (by compute).
  assert (Hd : is_unit (_direction s)) by (right; right; left; reflexivity).
  split; [reflexivity|]. split; [exact Hp|]. split; [exact Hd|].
  exact (next_head_modular s eq_refl Hp Hd).
Defined.

(** X2: a step followed by a step in the reverse direction brings the head
    back: on a body of the program whose head is a cell of the playfield,
    the next head of the body moved one step and turned around is the
    head it started from, also across the edges of the screen. *)
Theorem step_back_round_trip (s : t) :
  _size s = GRID_SIZE -> on_grid (_position s) -> is_unit (_direction s) ->
  _get_next_head
    (set_direction (set_position s (_get_next_head s))
                   (opposite (_direction s)))
  = _position s.
Proof.
  intros Hz Hp Hd. rewrite (next_head_next_cell (set_direction _ _)) by done.
  simpl. rewrite next_head_next_cell by done. by apply next_cell_back.
Qed.

(** From (620, 240): RIGHT to (0, 240), and LEFT back to (620, 240). *)
Lemma step_back_round_trip_sample :
  _size sample_body_edge = GRID_SIZE /\
  on_grid (_position sample_body_edge) /\
  is_unit (_direction sample_body_edge) /\
  _get_next_head
    (set_direction (set_position sample_body_edge (0, 240)) LEFT)
  = (620, 240).
Proof.
  assert (Hp : on_grid (_position sample_body_edge)) by (by compute).
  assert (Hd : is_unit (_direction sample_body_edge))
    by (right; right; right; reflexivity).
  split; [reflexivity|]. split; [exact Hp|]. split; [exact Hd|].
  exact (step_back_round_trip sample_body_edge eq_refl Hp Hd).
Defined.

(** A lone head that is not about to grow moves without raising and
    without colliding, and stays a lone head. *)
Lemma move_lone (s : t) :
  _positions s = [] -> _tail_cache s = ∅ -> _increase s = false ->
  next_direction s = None ->
  exists s1, move s = Some (false, s1) /\
    _positions s1 = [] /\ _tail_cache s1 = ∅ /\ _increase s1 = false /\
    next_direction s1 = None /\ _size s1 = _size s /\
    _direction s1 = _direction s /\ _position s1 = _get_next_head s.
Proof.
  intros Hl Hc Hi Hn. unfold move.
  rewrite shift_segments_alone by done. simpl.
  unfold is_point_in_snake. simpl.
  rewrite Hc, bool_decide_eq_false_2 by apply not_elem_of_empty.
  eexists. split; [reflexivity|].
  unfold _get_next_head. simpl. by rewrite Hl, Hc, Hi, Hn.
Qed.

(** X3: a lone head of the program that walks straight, with nothing
    queued and no growth pending, never raises and never collides: each of
    [n] calls of [move] in a row returns False; after them it is still a
    lone head going the same way, [n] cells further modulo the extent of
    the screen, so that it is back where it started after 32 moves along a
    row and after 24 moves along a column. *)
Theorem walk_straight (n : nat) (s : t) :
  _positions s = [] -> _tail_cache s = ∅ -> _increase s = false ->
  next_direction s = None ->
  _size s = GRID_SIZE -> on_grid (_position s) -> is_unit (_direction s) ->
  exists s', moves n s = Some (replicate n false, s') /\
    _positions s' = [] /\ _direction s' = _direction s /\
    _position s' =
      (((_position s).1 + Z.of_nat n * ((_direction s).1 * GRID_SIZE))
         mod SCREEN_WIDTH,
       ((_position s).2 + Z.of_nat n * ((_direction s).2 * GRID_SIZE))
         mod SCREEN_HEIGHT) /\
    (Z.of_nat n = GRID_WIDTH -> (_direction s).2 = 0 ->
     _position s' = _position s) /\
    (Z.of_nat n = GRID_HEIGHT -> (_direction s).1 = 0 ->
     _position s' = _position s).
Proof.
  intros Hl Hc Hi Hn Hz Hp Hd.
  assert (Hwalk : exists s', moves n s = Some (replicate n false, s') /\
            _positions s' = [] /\ _direction s' = _direction s /\
            _position s' =
              (((_position s).1 + Z.of_nat n * ((_direction s).1 * GRID_SIZE))
                 mod SCREEN_WIDTH,
               ((_position s).2 + Z.of_nat n * ((_direction s).2 * GRID_SIZE))
                 mod SCREEN_HEIGHT)).
  { revert s Hl Hc Hi Hn Hz Hp Hd.
    induction n as [|n IH]; intros s Hl Hc Hi Hn Hz Hp Hd.
    - exists s. split; [done|]. split; [done|]. split; [done|].
      destruct Hp as [[Hx _] [Hy _]]. destruct (_position s) as [x y].
      unfold SCREEN_WIDTH, SCREEN_HEIGHT in *. simpl in *.
      f_equal; rewrite Z.add_0_r, Z.mod_small; lia.
    - destruct (move_lone s Hl Hc Hi Hn)
        as (s1 & Hm & Hl1 & Hc1 & Hi1 & Hn1 & Hz1 & Hd1 & Hp1).
      assert (Hg1 : on_grid (_position s1)).
      { rewrite Hp1. by apply next_head_on_grid. }
      rewrite next_head_next_cell, next_cell_modular in Hp1 by done.
      destruct (IH s1) as (s' & Hms & Hl' & Hd' & Hp');
        [done | done | done | done | congruence | done | congruence |].
      exists s'. simpl. rewrite Hm, Hms. split; [done|]. split; [done|].
      split; [congruence|].
      rewrite Hp', Hp1, Hd1. simpl.
      rewrite !Z.add_mod_idemp_l by done.
      rewrite Nat2Z.inj_succ. f_equal; f_equal; lia. }
  destruct Hwalk as (s' & Hms & Hl' & Hd' & Hp').
  exists s'. do 4 (split; [done|]).
  destruct Hp as [[Hx _] [Hy _]]. apply is_unit_cases in Hd.
  rewrite Hp'. destruct (_position s) as [x y], (_direction s) as [dx dy].
  unfold GRID_WIDTH, GRID_HEIGHT, SCREEN_WIDTH, SCREEN_HEIGHT, GRID_SIZE in *.
  simpl in *.
  split; intros Hlen ->; rewrite Hlen; f_equal;
    Z.div_mod_to_equations; lia.
Qed.

(** The lone head at (620, 240) is back there after 32 moves to the
    right. *)
Lemma walk_straight_sample :
  on_grid (_position sample_body_edge) /\
  is_unit (_direction sample_body_edge) /\
  exists s', moves 32 sample_body_edge = Some (replicate 32 false, s') /\
             _position s' = _position sample_body_edge.
Proof.
  assert (Hp : on_grid (_position sample_body_edge)) by (by compute).
  assert (Hd : is_unit (_direction sample_body_edge))
    by (right; right; right; reflexivity).
  split; [exact Hp|]. split; [exact Hd|].
  destruct (walk_straight 32 sample_body_edge
              eq_refl eq_refl eq_refl eq_refl eq_refl Hp Hd)
    as (s' & Hm & _ & _ & _ & Hrow & _).
  exists s'. split; [exact Hm|]. exact (Hrow eq_refl eq_refl).
Defined.

End Torus.

(** ** The events of one iteration *)

Section Events.

Import GameController SnakeInternal.

Lemma handle_key_queued (s : t) (key : Key) :
  handle_key s key =
    match queued_by (_direction s) (KEYDOWN key) with
    | Some d => update_direction s d
    | None => s
    end.
Proof.
  unfold queued_by. destruct (key_direction key) as [d|] eqn:Hk.
  - rewrite (handle_key_arrow s key d Hk).
    by destruct (decide (d = opposite (_direction s))).
  - destruct key; try discriminate Hk. apply handle_key_other.
Qed.

Lemma handle_keys_direction (events : list Event) (s : t) :
  _direction (handle_keys s events).2 = _direction s.
Proof.
  destruct (handle_keys s events) as [ok s1] eqn:Hk.
  by apply handle_keys_pending in Hk as (nd & -> & _).
Qed.

(** X4: [handle_keys] stops at the first QUIT event: it returns False,
    with the events before it handled and those after it ignored; without
    a QUIT event it returns True, and handling two lists of events one
    after the other is handling their concatenation. *)
Theorem handle_keys_quit (s : t) (pre post : list Event) :
  QUIT ∉ pre ->
  handle_keys s (pre ++ QUIT :: post) = (false, (handle_keys s pre).2) /\
  (handle_keys s pre).1 = true /\
  handle_keys s (pre ++ post) = handle_keys (handle_keys s pre).2 post.
Proof.
  revert s. induction pre as [|e pre IH]; intros s Hq; [done|].
  apply not_elem_of_cons in Hq as [Hne Hq].
  destruct e as [|key|]; [done| |]; simpl; by apply IH.
Qed.

(** UP is queued, then QUIT ends the handling: DOWN is not looked at. *)
Lemma handle_keys_quit_sample :
  (QUIT ∉ [KEYDOWN K_UP]) /\
  handle_keys (snake sample_game) [KEYDOWN K_UP; QUIT; KEYDOWN K_DOWN]
    = (false, sample_body_queued).
Proof.
  assert (Hq : QUIT ∉ [KEYDOWN K_UP]).
  { intros [H | H]%elem_of_cons; [discriminate H | by apply elem_of_nil in H]. }
  split; [exact Hq|].
  exact (proj1 (handle_keys_quit (snake sample_game) [KEYDOWN K_UP]
                  [KEYDOWN K_DOWN] Hq)).
Defined.

(** X5: among the events of one iteration the last arrow that is not the
    reverse of the direction the body moves in wins: without a QUIT event,
    the direction pending after [handle_keys] is the one of the last such
    arrow, and what was pending before when there is none. *)
Theorem handle_keys_last_wins (s : t) (events : list Event) :
  QUIT ∉ events ->
  next_direction (handle_keys s events).2 =
    match last (omap (queued_by (_direction s)) events) with
    | Some d => Some d
    | None => next_direction s
    end.
Proof.
  revert s. induction events as [|e events IH]; intros s Hq; [done|].
  apply not_elem_of_cons in Hq as [Hne Hq].
  destruct e as [|key|]; [done| |].
  - change (handle_keys s (KEYDOWN key :: events))
      with (handle_keys (handle_key s key) events).
    rewrite IH by done. rewrite handle_key_queued.
    change (omap (queued_by (_direction s)) (KEYDOWN key :: events))
      with (match queued_by (_direction s) (KEYDOWN key) with
            | Some d => d :: omap (queued_by (_direction s)) events
            | None => omap (queued_by (_direction s)) events
            end).
    destruct (queued_by (_direction s) (KEYDOWN key)) as [d|]; [|done].
    rewrite last_cons. simpl.
    by destruct (last (omap (queued_by (_direction s)) events)).
  - by apply IH.
Qed.

(** Moving RIGHT: LEFT is dropped, of UP and DOWN the later one wins. *)
Lemma handle_keys_last_wins_sample :
  let events := [KEYDOWN K_UP; KEYDOWN K_DOWN; KEYDOWN K_LEFT] in
  (QUIT ∉ events) /\
  next_direction (handle_keys (snake sample_game) events).2 = Some DOWN.
Proof.
  intros events.
  assert (Hq : QUIT ∉ events).
  { unfold events. rewrite !not_elem_of_cons.
    repeat split; try discriminate. apply not_elem_of_nil. }
  split; [exact Hq|].
  exact (handle_keys_last_wins (snake sample_game) events Hq).
Defined.

(** X6: whatever the events, [handle_keys] changes nothing of the body but
    the pending direction: the head, the segments and their index, the
    direction, the growth flag, the cell to erase and the cell size are as
    before. *)
Theorem handle_keys_frame (s : t) (events : list Event) :
  let s' := (handle_keys s events).2 in
  _position s' = _position s /\ _positions s' = _positions s /\
  _tail_cache s' = _tail_cache s /\ _direction s' = _direction s /\
  _increase s' = _increase s /\ _last s' = _last s /\ _size s' = _size s.
Proof.
  destruct (handle_keys s events) as [ok s1] eqn:Hk. simpl.
  by apply handle_keys_pending in Hk as (nd & -> & _).
Qed.

(** X7: a queued direction is used by exactly the next [move]: when [move]
    returns, the direction of the body is the one that was pending, or the
    old one when none was, nothing is pending any more, and a further
    [move] keeps that direction. *)
Theorem pending_direction_consumed (s : t) (b : bool) (s' : t) :
  move s = Some (b, s') ->
  next_direction s' = None /\
  _direction s' = default (_direction s) (next_direction s) /\
  forall b2 s2, move s' = Some (b2, s2) -> _direction s2 = _direction s'.
Proof.
  intros [Hd Hn]%move_direction. split; [done|]. split; [done|].
  intros b2 s2 [Hd2 _]%move_direction. by rewrite Hd2, Hn.
Qed.

(** With UP queued the body of the sample run turns up. *)
Lemma pending_direction_consumed_sample :
  let s' := mk (340, 220) GRID_SIZE (Some (320, 240)) [(340, 240)] UP None
               false {[ (340, 240) ]} in
  move sample_body_queued = Some (false, s') /\
  next_direction s' = None /\ _direction s' = UP.
Proof.
  intros s'.
  assert (Hm : move sample_body_queued = Some (false, s'))
    by (vm_compute; reflexivity).
  split; [exact Hm|].
  destruct (pending_direction_consumed _ _ _ Hm) as (Hn & Hd & _).
  split; [exact Hn | exact Hd].
Defined.

End Events.

(** ** The shape of the body *)

Section Shape.

Import GameController SnakeInternal.

(** The segments and the cell to erase after a [move]. *)
Lemma move_positions (s : t) (b : bool) (s' : t) :
  move s = Some (b, s') ->
  _positions s' =
    (if _increase s then _position s :: _positions s
     else match _positions s with
          | [] => []
          | _ :: _ => _position s :: removelast (_positions s)
          end) /\
  _last s' =
    (if _increase s then _last s
     else Some (default (_position s) (last (_positions s)))).
Proof.
  intros (s1 & Hs & -> & _)%move_Some. simpl.
  assert (Hi : _increase (commit_direction s) = _increase s) by done.
  destruct (_increase s) eqn:Ei.
  - rewrite shift_segments_grow in Hs by done. by injection Hs as <-.
  - destruct (list_nil_or_snoc (_positions s)) as [E | (rest & lst & E)].
    + rewrite shift_segments_alone in Hs by done.
      injection Hs as <-. simpl. by rewrite E.
    + rewrite (shift_segments_drop _ rest lst) in Hs by done.
      simpl in Hs. destruct (decide (lst ∈ _tail_cache s)); [|done].
      injection Hs as <-. simpl.
      rewrite E, last_snoc, removelast_last. simpl.
      by destruct rest.
Qed.

Lemma trail_app_l (l k : list Point) : trail (l ++ k) -> trail l.
Proof.
  induction l as [|p l IH]; [done|].
  destruct l as [|q l]; [done|]. simpl. intros [Ha Ht]. split; [done|].
  by apply IH.
Qed.

Lemma removelast_prefix (l : list Point) : exists k, l = removelast l ++ k.
Proof.
  destruct (list_nil_or_snoc l) as [-> | (rest & lst & ->)].
  - by exists [].
  - exists [lst]. by rewrite removelast_last.
Qed.

Lemma removelast_elem_of (l : list Point) (p : Point) :
  p ∈ removelast l -> p ∈ l.
Proof.
  destruct (removelast_prefix l) as [k Hk]. intros Hp.
  rewrite Hk. apply elem_of_app. by left.
Qed.

(** What one iteration of the loop of [main] that completes has done. *)
Lemma tick_cases (g : GameController.t) (events : list Event) (rnd : Samples)
    (g' : GameController.t) (rnd' : Samples) :
  tick g events rnd = Next g' rnd' ->
  exists s b s',
    handle_keys (snake g) events = (true, s) /\
    move s = Some (b, s') /\
    ((b = true /\ snake g' = draw (reset s') /\
      randomize_apple (reset s') (apple g) rnd = Some (apple g', rnd')) \/
     (b = false /\
      _position s' = AppleInternal._position (apple g) /\
      snake g' = draw (increase s') /\
      randomize_apple (increase s') (apple g) rnd = Some (apple g', rnd')) \/
     (b = false /\
      _position s' ≠ AppleInternal._position (apple g) /\
      snake g' = draw s' /\ apple g' = apple g /\ rnd' = rnd)).
Proof.
  unfold tick.
  destruct (handle_keys (snake g) events) as [ok s] eqn:Hk.
  destruct ok; simpl; [|done].
  destruct (move s) as [[b s']|] eqn:Hm; [|done].
  destruct b.
  - destruct (randomize_apple (reset s') (apple g) rnd) as [[a r]|] eqn:Hr;
      [|done].
    intros [= <- <-]. exists s, true, s'. eauto 10.
  - unfold validate_snake_head, get_head_position. simpl.
    destruct (decide (_position s' = AppleInternal._position (apple g)))
      as [Heq | Hne].
    + destruct (randomize_apple (increase s') (apple g) rnd) as [[a r]|] eqn:Hr;
        [|done].
      intros [= <- <-]. exists s, false, s'. eauto 10.
    + intros [= <- <-]. exists s, false, s'. split; [done|]. split; [done|].
      right. right. by destruct g.
Qed.

(** The shape of the body after a [move], before [main] draws it. *)
Lemma move_shape (s : t) (b : bool) (s' : t) :
  body_inv s -> head_free s ->
  Forall on_grid (_positions s) ->
  trail (_position s :: _positions s) ->
  move s = Some (b, s') ->
  Forall on_grid (_positions s') /\
  trail (_position s' :: _positions s') /\
  (forall p l, _positions s' = p :: l ->
     p = _position s /\ _position s' = next_cell p (_direction s')).
Proof.
  intros Hinv Hfree Hcells Htrail Hm.
  destruct (move_inv s Hinv Hfree)
    as (b0 & s0 & s1 & Hm0 & Hs & -> & Hinv' & _).
  rewrite Hm in Hm0. injection Hm0 as -> ->.
  destruct (move_positions _ _ _ Hm) as [Hl _].
  destruct (shift_segments_frame _ _ Hs) as (Hp1 & Hz1 & Hd1 & _).
  simpl in Hp1, Hz1.
  assert (Hhead : _position (set_position s1 (_get_next_head s1))
                  = next_cell (_position s)
                      (_direction (set_position s1 (_get_next_head s1)))).
  { simpl. rewrite next_head_next_cell, Hp1; [done|].
    rewrite Hz1. by destruct Hinv. }
  assert (Hsub : exists k, _position s :: _positions s
                           = _positions (set_position s1 (_get_next_head s1)) ++ k
                 \/ _positions (set_position s1 (_get_next_head s1)) = []).
  { rewrite Hl. destruct (_increase s).
    - exists []. left. by rewrite app_nil_r.
    - destruct (_positions s) as [|q l] eqn:E; [exists []; by right|].
      destruct (removelast_prefix (q :: l)) as [k Hk].
      exists k. left. simpl. by rewrite Hk at 1. }
  destruct Hsub as [k [Hk | Hnil]].
  - assert (Hall : Forall on_grid (_position s :: _positions s)).
    { constructor; [by destruct Hinv | done]. }
    rewrite Hk in Hall, Htrail.
    apply Forall_app in Hall as [Hall _]. apply trail_app_l in Htrail.
    split; [done|].
    destruct (_positions (set_position s1 (_get_next_head s1)))
      as [|p l] eqn:E.
    + split; [done|]. by intros p l.
    + injection Hk as <- _. split.
      * split; [|done]. exists (_direction (set_position s1 (_get_next_head s1))).
        split; [by destruct Hinv' | done].
      * intros p' l' [= <- <-]. done.
  - rewrite Hnil. split; [constructor|]. split; [done|]. by intros p l.
Qed.

Lemma draw_last (s : t) : _last (draw s) = None.
Proof. unfold draw, _erase_last. by destruct (_last s) eqn:E. Qed.

Lemma reset_shape (s : t) : shape_inv (draw (reset s)).
Proof.
  destruct (draw_frame (reset s)) as (Ep & El & _ & _).
  destruct (reset_frame s) as (_ & El' & _).
  split; rewrite ?El, ?El'.
  - constructor.
  - by simpl.
  - intros p l E. discriminate E.
  - apply draw_last.
Qed.

Lemma draw_direction (s : t) : _direction (draw s) = _direction s.
Proof. unfold draw, _erase_last. by destruct (_last s). Qed.

Lemma tick_shape (g : GameController.t) (events : list Event) (rnd : Samples)
    (g' : GameController.t) (rnd' : Samples) :
  tick_inv g -> shape_inv (snake g) ->
  tick g events rnd = Next g' rnd' -> shape_inv (snake g').
Proof.
  intros [Hinv Hfree _] [Hcells Htrail _ _]
    (s & b & s' & Hk & Hm & Hcase)%tick_cases.
  destruct (handle_keys_inv _ _ _ _ Hinv Hk) as (Hinv1 & Hp1 & Hl1 & _).
  assert (Hfree1 : head_free s) by (unfold head_free; by rewrite Hp1, Hl1).
  rewrite <- Hp1, <- Hl1 in Htrail. rewrite <- Hl1 in Hcells.
  destruct (move_shape s b s' Hinv1 Hfree1 Hcells Htrail Hm)
    as (Hcells' & Htrail' & Hneck').
  assert (Hshape : forall s2, _position s2 = _position s' ->
            _positions s2 = _positions s' -> _direction s2 = _direction s' ->
            shape_inv (draw s2)).
  { intros s2 Ep El Ed. destruct (draw_frame s2) as (Ep2 & El2 & _).
    split; rewrite ?Ep2, ?El2, ?draw_direction, ?Ep, ?El, ?Ed; try done.
    - intros p l E. by apply Hneck' in E as [_ E].
    - apply draw_last. }
  destruct Hcase as [(_ & -> & _) | [(_ & _ & -> & _) | (_ & _ & -> & _)]].
  - apply reset_shape.
  - by apply Hshape.
  - by apply Hshape.
Qed.

Lemma reachable_shape (g : GameController.t) :
  reachable g -> shape_inv (snake g).
Proof.
  induction 1 as [|g events rnd g' rnd' Hr IH Ht].
  - split; simpl; try done.
  - eapply tick_shape; eauto using reachable_inv.
Qed.

(** X8: in an iteration of the loop of [main], the cell that [move]
    records in [_last] for [draw] to erase is the cell just left: the last
    segment, or the old head of a lone head; it is never one of the
    trailing segments after the move.  When the body grows nothing is left
    and [_last] stays empty. *)
Theorem vacated_cell (g : GameController.t) (events : list Event)
    (ok b : bool) (s s' : t) :
  reachable g ->
  handle_keys (snake g) events = (ok, s) ->
  move s = Some (b, s') ->
  (_increase s = true -> _last s' = None) /\
  (_increase s = false ->
     exists l, _last s' = Some l /\
       l = default (_position s) (last (_positions s)) /\
       (l ∉ _positions s')).
Proof.
  intros Hr Hk Hm.
  destruct (reachable_inv g Hr) as [Hinv Hfree _].
  destruct (reachable_shape g Hr) as [_ _ _ Hlast].
  destruct (handle_keys_inv _ _ _ _ Hinv Hk) as (Hinv1 & Hp1 & Hl1 & _).
  assert (Hfree1 : head_free s) by (unfold head_free; by rewrite Hp1, Hl1).
  assert (Hlast1 : _last s = None).
  { apply handle_keys_pending in Hk as (nd & -> & _). done. }
  destruct (move_positions _ _ _ Hm) as [Hl' Hlast'].
  split; intros Hi; rewrite Hi in Hl', Hlast'; [congruence|].
  eexists. split; [done|]. split; [done|]. rewrite Hl'.
  destruct (list_nil_or_snoc (_positions s)) as [E | (rest & lst & E)].
  - rewrite E. apply not_elem_of_nil.
  - rewrite E, last_snoc, removelast_last. simpl.
    destruct rest as [|q rest]; simpl.
    + intros [-> | Hin%elem_of_nil]%elem_of_cons; [|done].
      apply Hfree1. rewrite E. by apply list_elem_of_singleton.
    + change (q :: rest ++ [lst]) with ((q :: rest) ++ [lst]) in E.
      destruct Hinv1 as [_ Hnd _ _ _ _]. rewrite E in Hnd.
      apply NoDup_app in Hnd as (_ & Hdis & _).
      intros [-> | Hin]%elem_of_cons.
      * apply Hfree1. rewrite E, elem_of_app, list_elem_of_singleton. by right.
      * by apply (Hdis lst), list_elem_of_singleton.
Qed.

(** The next [move] of the sample run leaves the cell (320, 240). *)
Lemma vacated_cell_sample :
  reachable sample_game /\
  move (snake sample_game) = Some (false, sample_body_moved) /\
  exists l, _last sample_body_moved = Some l /\ (l ∉ _positions sample_body_moved).
Proof.
  split; [exact sample_game_reachable|]. split; [exact sample_game_move|].
  destruct (vacated_cell sample_game [] true false _ _
              sample_game_reachable eq_refl sample_game_move) as [_ H].
  destruct (H eq_refl) as (l & Hl & _ & Hout).
  exists l. split; [exact Hl | exact Hout].
Defined.

(** X9: in every state the program reaches after complete iterations of
    its loop the body is connected: the head is one step, in the direction
    the body moves in, from the first trailing segment, and every
    trailing segment is one step from the next one, edges of the screen
    wrapped. *)
Theorem body_connected (g : GameController.t) :
  reachable g ->
  trail (_position (snake g) :: _positions (snake g)) /\
  forall p l, _positions (snake g) = p :: l ->
    _position (snake g) = next_cell p (_direction (snake g)).
Proof. intros [_ Ht Hn _]%reachable_shape. by split. Qed.

(** After the sample run the head (340, 240) is one step to the right of
    the segment (320, 240). *)
Lemma body_connected_sample :
  reachable sample_game /\
  _position (snake sample_game) = next_cell (320, 240) RIGHT.
Proof.
  split; [exact sample_game_reachable|].
  exact (proj2 (body_connected sample_game sample_game_reachable)
               (320, 240) [] eq_refl).
Defined.

(** X10: in every state the program reaches after complete iterations of
    its loop the trailing segments are cells of the playfield, the head
    and the segments are pairwise distinct, the occupancy index has as
    many elements as there are segments, and the property [length] (the
    segments and the head) is at most the number of cells of the grid,
    [GRID_WIDTH * GRID_HEIGHT]. *)
Theorem body_fits_grid (g : GameController.t) :
  reachable g ->
  Forall on_grid (_positions (snake g)) /\
  NoDup (_position (snake g) :: _positions (snake g)) /\
  size (_tail_cache (snake g)) = List.length (_positions (snake g)) /\
  SnakeInternal.length (snake g) <= GRID_WIDTH * GRID_HEIGHT.
Proof.
  intros Hr. destruct (reachable_inv g Hr) as [[Hs Hnd _ _ _ Hc] Hfree _].
  destruct (reachable_shape g Hr) as [Hcells _ _ _].
  assert (Hnd' : NoDup (_position (snake g) :: _positions (snake g)))
    by (by constructor).
  split; [done|]. split; [done|]. split.
  - rewrite Hs. by apply size_list_to_set.
  - unfold SnakeInternal.length. rewrite <- length_grid_cells.
    assert (Hsub : _position (snake g) :: _positions (snake g) ⊆+ grid_cells).
    { apply NoDup_submseteq; [done|]. intros p Hp.
      apply elem_of_grid_cells. apply elem_of_cons in Hp as [-> | Hp]; [done|].
      rewrite Forall_forall in Hcells. by apply Hcells. }
    apply submseteq_length in Hsub. rewrite length_cons in Hsub. lia.
Qed.

(** After the sample run the body has two cells, out of 768. *)
Lemma body_fits_grid_sample :
  reachable sample_game /\
  SnakeInternal.length (snake sample_game) <= GRID_WIDTH * GRID_HEIGHT.
Proof.
  split; [exact sample_game_reachable|].
  exact (proj2 (proj2 (proj2
           (body_fits_grid sample_game sample_game_reachable)))).
Defined.

End Shape.


(** ** One iteration of the loop of [main] *)

Section Iteration.

Import GameController SnakeInternal.

Lemma loop_game_reachable : reachable loop_game.
Proof.
  apply (run_reachable loop_inputs main_init); [constructor|].
  vm_compute. reflexivity.
Qed.

Lemma loop_game_keys :
  handle_keys (snake loop_game) [KEYDOWN K_DOWN] = (true, loop_body_turned).
Proof. vm_compute. reflexivity. Qed.

Lemma loop_game_move : move loop_body_turned = Some (true, loop_body_collided).
Proof. vm_compute. reflexivity. Qed.

Lemma loop_game_tick :
  tick loop_game [KEYDOWN K_DOWN] [(100, 100)] = Next loop_game_over [].
Proof. vm_compute. reflexivity. Qed.

Lemma handle_keys_false (events : list Event) (s : t) :
  (handle_keys s events).1 = false <-> QUIT ∈ events.
Proof.
  revert s. induction events as [|e events IH]; intros s; simpl.
  - split; [done | by intros ?%elem_of_nil].
  - rewrite elem_of_cons. destruct e as [|key|]; simpl.
    + split; [by left | done].
    + rewrite IH. split; [by right | by intros [? | ?]].
    + rewrite IH. split; [by right | by intros [? | ?]].
Qed.

(** X11: in every state the program reaches after complete iterations of
    its loop the head is a cell of the playfield, the direction is one of
    UP, DOWN, LEFT and RIGHT, no direction is pending, no cell is left to
    erase, and the cell size is [GRID_SIZE]. *)
Theorem between_iterations (g : GameController.t) :
  reachable g ->
  on_grid (_position (snake g)) /\ is_unit (_direction (snake g)) /\
  next_direction (snake g) = None /\ _last (snake g) = None /\
  _size (snake g) = GRID_SIZE.
Proof.
  intros Hr. destruct (reachable_inv g Hr) as [[_ _ Hz Hd _ Hc] _ Hn].
  by destruct (reachable_shape g Hr) as [_ _ _ Hl].
Qed.

(** The state before the collision: the head is on the playfield. *)
Lemma between_iterations_sample :
  reachable loop_game /\ on_grid (_position (snake loop_game)).
Proof.
  split; [exact loop_game_reachable|].
  exact (proj1 (between_iterations loop_game loop_game_reachable)).
Defined.

(** X12: from a state the program reaches, an iteration of the loop of
    [main] never raises, whatever the events and the draws, and it leaves
    the loop exactly when a QUIT event is among the events. *)
Theorem tick_outcome (g : GameController.t) (events : list Event)
    (rnd : Samples) :
  reachable g ->
  tick g events rnd ≠ Raised /\
  (tick g events rnd = Quit <-> QUIT ∈ events).
Proof.
  intros [Hinv Hfree _]%reachable_inv.
  rewrite <- (handle_keys_false events (snake g)). unfold tick.
  destruct (handle_keys (snake g) events) as [ok s] eqn:Hk.
  destruct ok; simpl; [|done].
  destruct (handle_keys_inv _ _ _ _ Hinv Hk) as (Hinv1 & Hp1 & Hl1 & _).
  assert (Hfree1 : head_free s) by (unfold head_free; by rewrite Hp1, Hl1).
  destruct (move_inv s Hinv1 Hfree1) as (b & s' & _ & -> & _).
  destruct b.
  - by destruct (randomize_apple (reset s') (apple g) rnd) as [[a r]|].
  - by destruct (validate_snake_head (GameController.mk s' (apple g)) rnd)
      as [[g' r]|].
Qed.

(** The iteration that collides does not raise and does not quit. *)
Lemma tick_outcome_sample :
  reachable loop_game /\
  tick loop_game [KEYDOWN K_DOWN] [(100, 100)] ≠ Raised.
Proof.
  split; [exact loop_game_reachable|].
  exact (proj1 (tick_outcome loop_game [KEYDOWN K_DOWN] [(100, 100)]
                  loop_game_reachable)).
Defined.

Lemma reset_eq (s : t) :
  reset s = mk (_position s) (_size s) None [] START_SNAKE_DIRECTION None
               (_increase s) ∅.
Proof.
  unfold reset, _erase_last, set_tail_cache, set_next_direction,
    set_direction, set_positions, set_last.
  destruct (_last s) eqn:E; simpl; by rewrite ?E.
Qed.

(** X13: when [move] reports a collision in a state the program reaches,
    the iteration, if it completes, leaves a lone head on the cell where
    it ran into its body, which was one of the trailing segments, moving
    RIGHT, with nothing pending and no growth due; and the apple is on
    another cell than before. *)
Theorem collision_restarts (g : GameController.t) (events : list Event)
    (rnd : Samples) (g' : GameController.t) (rnd' : Samples) (s s' : t) :
  reachable g ->
  handle_keys (snake g) events = (true, s) ->
  move s = Some (true, s') ->
  tick g events rnd = Next g' rnd' ->
  snake g' = mk (_position s') GRID_SIZE None [] RIGHT None false ∅ /\
  (_position s' ∈ _positions s') /\
  AppleInternal._position (apple g') ≠ AppleInternal._position (apple g).
Proof.
  intros [Hinv Hfree _]%reachable_inv Hk Hm
    (s0 & b0 & s0' & Hk0 & Hm0 & Hcase)%tick_cases.
  rewrite Hk in Hk0. injection Hk0 as <-.
  rewrite Hm in Hm0. injection Hm0 as <- <-.
  destruct (handle_keys_inv _ _ _ _ Hinv Hk) as (Hinv1 & Hp1 & Hl1 & _).
  assert (Hfree1 : head_free s) by (unfold head_free; by rewrite Hp1, Hl1).
  destruct (move_inv s Hinv1 Hfree1)
    as (b1 & s1 & _ & Hm1 & _ & _ & Hinv' & Hi' & _ & _ & Hin & _).
  rewrite Hm in Hm1. injection Hm1 as <- <-.
  destruct Hcase as [(_ & Hs & Hr) | [(Hb & _) | (Hb & _)]]; try done.
  split; [|split].
  - rewrite Hs, reset_eq, Hi', (inv_size _ Hinv'). reflexivity.
  - by apply Hin.
  - apply randomize_apple_spec in Hr as (_ & _ & Hne).
    apply Hne. by rewrite reset_eq.
Qed.

(** The run that ends in a collision: a lone head is left at (380, 240). *)
Lemma collision_restarts_sample :
  reachable loop_game /\
  move loop_body_turned = Some (true, loop_body_collided) /\
  tick loop_game [KEYDOWN K_DOWN] [(100, 100)] = Next loop_game_over [] /\
  snake loop_game_over = mk (380, 240) GRID_SIZE None [] RIGHT None false ∅.
Proof.
  split; [exact loop_game_reachable|]. split; [exact loop_game_move|].
  split; [exact loop_game_tick|].
  exact (proj1 (collision_restarts _ _ _ _ _ _ _ loop_game_reachable
                  loop_game_keys loop_game_move loop_game_tick)).
Defined.



(** X15: on a body of the program, whatever state it is in, the [move]
    that follows a [reset] neither raises nor reports a collision, and
    leaves at most one trailing segment. *)
Theorem move_after_reset (s : t) :
  _size s = GRID_SIZE ->
  exists s', move (reset s) = Some (false, s') /\
             (List.length (_positions s') <= 1)%nat.
Proof.
  intros Hz. rewrite reset_eq. destruct (_increase s) eqn:Hi.
  - change (mk (_position s) (_size s) None [] START_SNAKE_DIRECTION None
               true ∅)
      with (increase (mk (_position s) (_size s) None []
                         START_SNAKE_DIRECTION None false ∅)).
    rewrite move_increase. simpl.
    rewrite bool_decide_eq_false_2; [eexists; split; [reflexivity|]; simpl; lia|].
    rewrite elem_of_union, elem_of_singleton.
    intros [Hin | Heq]; [by apply not_elem_of_empty in Hin|].
    revert Heq. unfold _get_next_head. simpl. rewrite Hz.
    destruct (_position s) as [x y].
    unfold SCREEN_WIDTH, SCREEN_HEIGHT, GRID_SIZE. simpl.
    repeat match goal with
           | |- context [?a <? ?b] => destruct (Z.ltb_spec a b)
           | |- context [?a >? ?b] => destruct (Z.gtb_spec a b)
           end; intros [= Hx Hy]; lia.
  - destruct (move_lone (mk (_position s) (_size s) None []
                            START_SNAKE_DIRECTION None false ∅))
      as (s1 & Hm & Hl & _); [done..|].
    exists s1. split; [done|]. rewrite Hl. simpl. lia.
Qed.

(** After the collision of the run the lone head moves on to (400, 240). *)
Lemma move_after_reset_sample :
  _size loop_body_collided = GRID_SIZE /\
  exists s', move (reset loop_body_collided) = Some (false, s').
Proof.
  split; [reflexivity|].
  destruct (move_after_reset loop_body_collided eq_refl) as (s' & Hm & _).
  exists s'. exact Hm.
Defined.

End Iteration.

(** ** Running into the body *)

Section Collision.

Import GameController SnakeInternal.

Lemma parity_step (q d : Point) :
  on_grid q -> is_unit d -> parity (next_cell q d) = 1 - parity q.
Proof.
  intros Hq Hd. rewrite next_cell_modular by done.
  destruct Hq as [[Hx Hxa] [Hy Hya]]. apply is_unit_cases in Hd.
  unfold parity. destruct q as [x y], d as [dx dy].
  unfold SCREEN_WIDTH, SCREEN_HEIGHT, GRID_SIZE in *. simpl in *.
  destruct Hd as [[-> [-> | ->]] | [[-> | ->] ->]];
    Z.div_mod_to_equations; lia.
Qed.

Lemma parity_adjacent (p q : Point) :
  on_grid q -> adjacent p q -> parity p = 1 - parity q.
Proof. intros Hq (d & Hd & ->). by apply parity_step. Qed.

Lemma next_cell_direction (q d1 d2 : Point) :
  on_grid q -> is_unit d1 -> is_unit d2 ->
  next_cell q d1 = next_cell q d2 -> d1 = d2.
Proof.
  intros Hq Hd1 Hd2. rewrite !next_cell_modular by done.
  destruct Hq as [[Hx Hxa] [Hy Hya]].
  apply is_unit_cases in Hd1, Hd2.
  destruct q as [x y], d1 as [dx1 dy1], d2 as [dx2 dy2].
  unfold SCREEN_WIDTH, SCREEN_HEIGHT, GRID_SIZE in *. simpl in *.
  intros [= Ex Ey].
  destruct Hd1 as [[-> [-> | ->]] | [[-> | ->] ->]];
    destruct Hd2 as [[-> [-> | ->]] | [[-> | ->] ->]];
    try reflexivity; exfalso; Z.div_mod_to_equations; lia.
Qed.

(** The direction a [move] commits after the events of an iteration is
    not the reverse of the direction the body had. *)
Lemma committed_not_reverse (g : GameController.t) (events : list Event)
    (ok : bool) (s : t) :
  tick_inv g -> handle_keys (snake g) events = (ok, s) ->
  default (_direction s) (next_direction s) ≠ opposite (_direction (snake g)).
Proof.
  intros [Hinv _ Hn] (nd & -> & Hnd)%handle_keys_pending. simpl.
  destruct Hnd as [-> | (d & -> & _ & Hne)]; [|done].
  rewrite Hn. simpl. apply is_unit_not_opposite. by destruct Hinv.
Qed.

(** X16: in a state the program reaches, the cell on which [move] reports
    a collision is none of the first three trailing segments, so that a
    collision takes at least four trailing segments: a body of fewer
    cells cannot run into itself. *)
Theorem collision_needs_four (g : GameController.t) (events : list Event)
    (ok : bool) (s s' : t) :
  reachable g ->
  handle_keys (snake g) events = (ok, s) ->
  move s = Some (true, s') ->
  (_position s' ∉ take 3 (_positions s')) /\
  (4 <= List.length (_positions s'))%nat.
Proof.
  intros Hr Hk Hm.
  pose proof (reachable_inv g Hr) as Htick.
  destruct Htick as [Hinv Hfree Hpend].
  destruct (reachable_shape g Hr) as [Hcells Htrail Hneck _].
  pose proof (committed_not_reverse g events ok s (reachable_inv g Hr) Hk)
    as Hrev.
  destruct (handle_keys_inv _ _ _ _ Hinv Hk) as (Hinv1 & Hp1 & Hl1 & _).
  assert (Hfree1 : head_free s) by (unfold head_free; by rewrite Hp1, Hl1).
  assert (Hd1 : _direction s = _direction (snake g)).
  { apply handle_keys_pending in Hk as (nd & -> & _). done. }
  destruct (move_inv s Hinv1 Hfree1)
    as (b1 & s1 & _ & Hm1 & _ & _ & Hinv' & _ & _ & _ & Hin & Hne).
  rewrite Hm in Hm1. injection Hm1 as <- <-.
  destruct (move_direction _ _ _ Hm) as [Hd' _].
  destruct (move_positions _ _ _ Hm) as [Hl' _].
  rewrite <- Hp1, <- Hl1 in Htrail. rewrite <- Hl1 in Hcells.
  destruct (move_shape s true s' Hinv1 Hfree1 Hcells Htrail Hm)
    as (Hcells' & Htrail' & Hneck').
  assert (Hhit : _position s' ∈ _positions s') by (by apply Hin).
  assert (Hu : is_unit (_direction s)) by (by destruct Hinv1).
  assert (Hu' : is_unit (_direction s')) by (by destruct Hinv').
  assert (Hg : on_grid (_position s)) by (by destruct Hinv1).
  remember (_positions s') as L eqn:EL.
  assert (Hout : _position s' ∉ take 3 L).
  { destruct L as [|q0 L]; [apply not_elem_of_nil|].
    destruct (Hneck' _ _ eq_refl) as [-> Hstep].
    apply Forall_cons in Hcells' as [_ Hcells'].
    destruct L as [|q1 L].
    { simpl. by rewrite list_elem_of_singleton. }
    assert (Hq1 : exists l, _positions s = q1 :: l).
    { destruct (_increase s); [injection Hl' as <-; eauto|].
      destruct (_positions s) as [|p [|r rest]]; simpl in Hl';
        [discriminate Hl' | discriminate Hl' | injection Hl' as <- _; eauto]. }
    destruct Hq1 as [l El].
    assert (Hback : _position s = next_cell q1 (_direction s)).
    { rewrite Hp1, Hd1. apply (Hneck q1 l). by rewrite <- Hl1. }
    apply Forall_cons in Hcells' as [Hg1 Hcells'].
    assert (Hne1 : _position s' ≠ q1).
    { intros Heq. apply Hrev. rewrite <- Hd', <- Hd1.
      apply (next_cell_direction (_position s));
        [done | done | by apply is_unit_opposite|].
      rewrite <- Hstep, Heq, Hback. symmetry. by apply next_cell_back. }
    destruct L as [|q2 L].
    { simpl. rewrite !not_elem_of_cons.
      split; [done|]. split; [done | apply not_elem_of_nil]. }
    apply Forall_cons in Hcells' as [Hg2 _].
    destruct Htrail' as (Ha0 & Ha1 & Ha2 & _).
    apply parity_adjacent in Ha0, Ha1, Ha2; try done.
    simpl. rewrite !not_elem_of_cons.
    split; [done|]. split; [done|]. split; [|apply not_elem_of_nil].
    intros Heq. rewrite Heq in Ha0. lia. }
  split; [done|].
  destruct L as [|q0 [|q1 [|q2 [|q3 L]]]]; simpl in *; try lia; by exfalso.
Qed.

(** The run that ends in a collision: the head runs into the fourth of
    four trailing segments. *)
Lemma collision_needs_four_sample :
  reachable loop_game /\
  move loop_body_turned = Some (true, loop_body_collided) /\
  (4 <= List.length (_positions loop_body_collided))%nat.
Proof.
  split; [exact loop_game_reachable|]. split; [exact loop_game_move|].
  exact (proj2 (collision_needs_four _ _ _ _ _ loop_game_reachable
                  loop_game_keys loop_game_move)).
Defined.

End Collision.

(** ** Throwing the apple *)

Section Throw.

Import GameController AppleInternal.

Local Abbreviation cache := SnakeInternal._tail_cache.







Lemma randomize_apple_loop_grid (fuel : nat) (s : SnakeInternal.t) (a : t)
    (rnd : Samples) (a' : t) (rnd' : Samples) :
  _size a = GRID_SIZE -> _surface a = screen ->
  Forall (in_range a) rnd ->
  randomize_apple_loop fuel s a rnd = Some (a', rnd') ->
  on_grid (_position a') /\ suffix rnd' rnd /\
  (List.length rnd' < List.length rnd)%nat.
Proof.
  revert a rnd. induction fuel as [|fuel IH]; intros a rnd Hz Hs Hrnd;
    simpl; [done|].
  destruct (randomize_position a rnd) as [[[p a1] r1]|] eqn:E; [|done].
  destruct (randomize_position_spec _ _ _ _ _ E)
    as (-> & _ & Hz1 & Hs1 & pre & xy & -> & Hp).
  apply Forall_app in Hrnd as [_ [Hxy Hr1]%Forall_cons].
  assert (Hsuf : suffix r1 (pre ++ xy :: r1)).
  { exists (pre ++ [xy]). by rewrite <- app_assoc. }
  assert (Hlen : (List.length r1 < List.length (pre ++ xy :: r1))%nat).
  { rewrite length_app. simpl. lia. }
  destruct (negb (SnakeInternal.is_point_in_snake s (_position a1))).
  - intros [= <- <-]. split; [|done]. rewrite Hp.
    by apply cell_of_in_range.
  - intros (Hg & Hsuf' & Hlen')%IH.
    + split; [done|]. split; [by etrans | lia].
    + congruence.
    + congruence.
    + eapply Forall_impl; [exact Hr1|]. unfold in_range. by rewrite Hz1, Hs1.
Qed.



End Throw.

(** ** The apple along a run *)

Section AppleRun.

Import SnakeInternal GameController AppleInternal.

(** X20: an apple of the program on a cell of the playfield stays one
    through an iteration of the loop of [main] whose draws are in the
    range of [randint]: after the iteration it is on a cell of the
    playfield, with the size and the surface it had; the apple [main]
    starts with is such an apple; and the draws left are the draws that
    follow those the iteration used. *)
Theorem apple_stays_on_grid (g : GameController.t) (events : list Event)
    (rnd : Samples) (g' : GameController.t) (rnd' : Samples) :
  on_grid (_position (apple g)) ->
  _size (apple g) = GRID_SIZE -> _surface (apple g) = screen ->
  Forall (in_range (apple g)) rnd ->
  tick g events rnd = Next g' rnd' ->
  on_grid (_position (apple g')) /\
  _size (apple g') = GRID_SIZE /\ _surface (apple g') = screen /\
  suffix rnd' rnd /\
  (on_grid (_position (apple main_init)) /\
   _size (apple main_init) = GRID_SIZE /\ _surface (apple main_init) = screen).
Proof.
  intros Hg Hz Hs Hrnd (s & b & s' & _ & _ & Hcase)%tick_cases.
  assert (Hinit : on_grid (_position (apple main_init)) /\
                  _size (apple main_init) = GRID_SIZE /\
                  _surface (apple main_init) = screen).
  { split; [by compute | done]. }
  destruct Hcase as [(_ & _ & Hr) | [(_ & _ & _ & Hr) | (_ & _ & _ & -> & ->)]].
  - destruct (randomize_apple_loop_grid _ _ _ _ _ _ Hz Hs Hrnd Hr)
      as (Hg' & Hsuf & _).
    apply randomize_apple_loop_spec in Hr as (_ & Hz' & Hs' & _).
    split; [done|]. split; [congruence|]. split; [congruence|]. done.
  - destruct (randomize_apple_loop_grid _ _ _ _ _ _ Hz Hs Hrnd Hr)
      as (Hg' & Hsuf & _).
    apply randomize_apple_loop_spec in Hr as (_ & Hz' & Hs' & _).
    split; [done|]. split; [congruence|]. split; [congruence|]. done.
  - done.
Qed.

(** The iteration of the sample run in which the apple is eaten leaves it
    on the cell (100, 100). *)
Lemma apple_stays_on_grid_sample :
  let g' := GameController.mk
              (SnakeInternal.mk (360, 240) GRID_SIZE None [(340, 240)] RIGHT
                                None true {[ (340, 240) ]})
              (AppleInternal.mk (100, 100) screen GRID_SIZE) in
  on_grid (_position (apple sample_game)) /\
  Forall (in_range (apple sample_game)) [(110, 105)] /\
  tick sample_game [] [(110, 105)] = Next g' [] /\
  on_grid (_position (apple g')).
Proof.
  intros g'.
  assert (Hg : on_grid (_position (apple sample_game))) by (by compute).
  assert (Hrnd : Forall (in_range (apple sample_game)) [(110, 105)]).
  { repeat constructor; vm_compute; congruence. }
  assert (Ht : tick sample_game [] [(110, 105)] = Next g' [])
    by (vm_compute; reflexivity).
  split; [exact Hg|]. split; [exact Hrnd|]. split; [exact Ht|].
  exact (proj1 (apple_stays_on_grid sample_game [] [(110, 105)] g' []
                  Hg eq_refl eq_refl Hrnd Ht)).
Defined.

End AppleRun.
